(** * Milan strikes calendar: the classification and date pipeline

    A shallow embedding of [scripts/mit_rss_to_milan_ics.py] and the
    properties of its keyword matcher, date extractor, span selector,
    identifier generator, classifier, inclusion decider and per-entry
    pipeline.

    Text.  A Python [str] is modelled as a list of characters of the Latin-1
    alphabet: an [ascii] value [n] stands for the code point U+00[n]
    (U+0000..U+00FF), which covers ASCII and the accented letters of Italian.
    On this alphabet [str.lower()] is character-wise and stays inside the
    alphabet, and [\d] is exactly [0-9]; both are modelled exactly.
    Beyond it [str.lower()] depends on the neighbours of a character
    (U+03A3), and [\d] has more digits: every property is one of texts,
    keywords and settings written in this alphabet.
    [str.upper()] leaves the alphabet at two characters (U+00B5, U+00FF) and
    is therefore partial in the model.

    Errors.  Python exceptions are modelled by the [result] monad. *)

From Stdlib Require Import List String Ascii ZArith NArith Bool Lia Arith.
From Stdlib Require Import Sorting.Sorted.
Import ListNotations.

Local Open Scope list_scope.

(** ** Strings *)

Definition str : Type := list ascii.

(** A string literal of the source. *)
Definition lit (s : string) : str := list_ascii_of_string s.

Definition code (c : ascii) : N := N_of_ascii c.

Definition in_range (lo hi n : N) : bool := ((lo <=? n) && (n <=? hi))%N.

(** [c.lower()] for one character: A-Z and the Latin-1 capitals
    U+00C0..U+00DE (without the multiplication sign U+00D7) move 32 up. *)
Definition lower_char (c : ascii) : ascii :=
  let n := code c in
  if in_range 65 90 n || (in_range 192 222 n && negb (n =? 215)%N)
  then ascii_of_N (n + 32)
  else c.

(** [s.lower()] *)
Definition lower (s : str) : str := map lower_char s.

(** [c.upper()] for one character.  U+00DF (sharp s) becomes the two
    characters "SS"; U+00B5 and U+00FF have their capitals outside the
    alphabet (U+039C, U+0178), where the model stops. *)
Definition upper_char (c : ascii) : option str :=
  let n := code c in
  if in_range 97 122 n || (in_range 224 254 n && negb (n =? 247)%N)
  then Some [ascii_of_N (n - 32)]
  else if (n =? 223)%N then Some (lit "SS")
  else if (n =? 181)%N || (n =? 255)%N then None
  else Some [c].

(** [s.upper()], when the result stays in the alphabet. *)
Fixpoint upper (s : str) : option str :=
  match s with
  | [] => Some []
  | c :: s' =>
      match upper_char c, upper s' with
      | Some u, Some us => Some (u ++ us)
      | _, _ => None
      end
  end.

Definition ascii_eqb (a b : ascii) : bool := Ascii.eqb a b.

(** [t.startswith(k)] *)
Fixpoint startswith (k t : str) : bool :=
  match k, t with
  | [], _ => true
  | _ :: _, [] => false
  | a :: k', b :: t' => ascii_eqb a b && startswith k' t'
  end.

(** [k in t] on strings: [k] occurs in [t] as a contiguous run. *)
Fixpoint contains (k t : str) : bool :=
  startswith k t ||
  match t with
  | [] => false
  | _ :: t' => contains k t'
  end.

(** ** Keyword matcher *)

(** The loop of [matches_any] over the keywords, [t] being the lower-cased
    text. *)
Fixpoint matches_any_loop (t : str) (keywords : list str) : bool :=
  match keywords with
  | [] => false
  | k :: ks => if contains (lower k) t then true else matches_any_loop t ks
  end.

(** [matches_any(text, keywords)].  [text or ""] is [text] for every [str]. *)
Definition matches_any (text : str) (keywords : list str) : bool :=
  let t := lower text in
  matches_any_loop t keywords.

Definition DEFAULT_GEO_KEYWORDS : list str :=
  map lit
    ["MILANO"; "MILAN"; "MI"; "LOMBARDIA"; "LOMBARDY"; "MONZA"; "BRIANZA";
     "LINATE"; "MALPENSA"; "BERGAMO"; "ORIO AL SERIO"; "VARESE"; "COMO";
     "PAVIA"; "CREMONA"; "MANTOVA"; "LECCO"; "SONDRIO"; "BRESCIA"]%string.

Definition DEFAULT_NATIONAL_MODE_KEYWORDS : list str :=
  map lit
    ["TRASPORTO PUBBLICO LOCALE"; "TPL"; "AUTOBUS"; "BUS"; "METRO";
     "METROPOLITANA"; "TRAM";
     "FERROVI"; "TRENI"; "TRENITALIA"; "RFI"; "ITALO"; "TRENORD";
     "AEREO"; "AEROPORT"; "ENAV"; "HANDLING";
     "AUTOSTRAD"; "TAXI"]%string.

(** ** Inclusion decider *)

Definition should_include (entry_blob : str) (geo_kw : list str)
    (include_national : bool) (nat_mode_kw : list str) : bool :=
  if matches_any entry_blob geo_kw then true
  else if include_national then
    if contains (lit "nazionale") (lower entry_blob)
       && matches_any entry_blob nat_mode_kw
    then true else false
  else false.

(** ** Classifier *)

Inductive scope_label : Type :=
  | National | Regional | Province | Local | Unspecified.

Definition detect_scope (text : str) : scope_label :=
  let t := lower text in
  if contains (lit "nazionale") t then National
  else if contains (lit "regionale") t then Regional
  else if contains (lit "provinc") t then Province
  else if contains (lit "locale") t then Local
  else Unspecified.

(** The mode categories; [mode_en] is the English half of the label pair
    that [detect_mode] returns. *)
Inductive mode_label : Type :=
  | LocalTransit | Rail | Air | Road | Generic.

Definition mode_en (m : mode_label) : str :=
  match m with
  | LocalTransit => lit "Local public transport strike"
  | Rail => lit "Rail strike"
  | Air => lit "Air transport strike"
  | Road => lit "Road transport strike"
  | Generic => lit "Transport strike"
  end.

(** [any(x in t for x in xs)] *)
Definition any_in (xs : list str) (t : str) : bool :=
  existsb (fun x => contains x t) xs.

Definition LOCAL_TRANSIT_TERMS : list str :=
  map lit ["trasporto pubblico locale"; "tpl"; "bus"; "autobus"; "metro";
           "metropolitana"; "tram"]%string.
Definition RAIL_TERMS : list str :=
  map lit ["ferrovi"; "treni"; "trenitalia"; "trenord"; "rfi"; "italo"]%string.
Definition AIR_TERMS : list str :=
  map lit ["aereo"; "aeroport"; "enav"; "handling"]%string.
Definition ROAD_TERMS : list str :=
  map lit ["autostrad"; "taxi"]%string.

Definition detect_mode (text : str) : mode_label :=
  let t := lower text in
  if any_in LOCAL_TRANSIT_TERMS t then LocalTransit
  else if any_in RAIL_TERMS t then Rail
  else if any_in AIR_TERMS t then Air
  else if any_in ROAD_TERMS t then Road
  else Generic.

(** ** Exceptions *)

Inductive exn : Type := ValueError | OverflowError | IndexError.

Inductive result (A : Type) : Type :=
  | Ok (a : A)
  | Raise (e : exn).
Arguments Ok {A} a.
Arguments Raise {A} e.

Definition bind {A B : Type} (c : result A) (k : A -> result B) : result B :=
  match c with
  | Ok a => k a
  | Raise e => Raise e
  end.

Notation "x <- c ;; k" := (bind c (fun x => k))
  (at level 61, c at next level, right associativity).

(** A [for] loop whose body may raise: the first exception ends the loop. *)
Fixpoint for_each {A S : Type} (body : S -> A -> result S) (xs : list A)
    (s : S) : result S :=
  match xs with
  | [] => Ok s
  | x :: xs' => s' <- body s x ;; for_each body xs' s'
  end.

(** ** The two date patterns and [finditer] *)

Definition is_digit (c : ascii) : bool := in_range 48 57 (code c).

(** The class [[\/\-]] *)
Definition is_sep (c : ascii) : bool :=
  ((code c =? 47) || (code c =? 45))%N.

(** The named groups of the patterns. *)
Inductive group : Type := G_d | G_m | G_y.

Definition group_eqb (a b : group) : bool :=
  match a, b with
  | G_d, G_d | G_m, G_m | G_y, G_y => true
  | _, _ => false
  end.

(** The patterns are sequences of two kinds of items: a named group
    [(?P<g>\d{lo,hi})] and the separator class. *)
Inductive atom : Type :=
  | Digits (g : group) (lo hi : nat)
  | Sep.

Definition pattern : Type := list atom.

Definition DATE_PATTERNS : list pattern :=
  [ [Digits G_d 1 2; Sep; Digits G_m 1 2; Sep; Digits G_y 4 4];
    [Digits G_y 4 4; Sep; Digits G_m 1 2; Sep; Digits G_d 1 2] ].

(** A match object: the text of each group, and the length of the match. *)
Definition re_match : Type := (list (group * str) * nat)%type.

(** The first [n] characters, when there are [n] and all are digits. *)
Definition take_digits (n : nat) (s : str) : option (str * str) :=
  if (List.length (firstn n s) =? n)%nat && forallb is_digit (firstn n s)
  then Some (firstn n s, skipn n s)
  else None.

(** The repetition counts of a greedy [{lo,hi}], in the order they are
    tried: [hi], [hi-1], ..., [lo]. *)
Definition counts (lo hi : nat) : list nat := rev (seq lo (S hi - lo)).

Fixpoint first_some {A B : Type} (f : A -> option B) (xs : list A)
    : option B :=
  match xs with
  | [] => None
  | x :: xs' =>
      match f x with
      | Some b => Some b
      | None => first_some f xs'
      end
  end.

(** Match [p] at the start of [s], backtracking over the greedy counts. *)
Fixpoint match_here (p : pattern) (s : str) : option re_match :=
  match p with
  | [] => Some ([], 0%nat)
  | Sep :: p' =>
      match s with
      | c :: s' =>
          if is_sep c then
            match match_here p' s' with
            | Some (gs, n) => Some (gs, S n)
            | None => None
            end
          else None
      | [] => None
      end
  | Digits g lo hi :: p' =>
      first_some
        (fun n =>
           match take_digits n s with
           | Some (ds, rest) =>
               match match_here p' rest with
               | Some (gs, k) => Some ((g, ds) :: gs, (n + k)%nat)
               | None => None
               end
           | None => None
           end)
        (counts lo hi)
  end.

(** The scan of [finditer]: every position is tried from left to right; a
    match of length [n] is reported and the [n - 1] positions it covers
    beyond its first are skipped, so that matches never overlap.  [skip]
    counts the positions still covered by the last match. *)
Fixpoint finditer_from (p : pattern) (skip : nat) (s : str)
    : list re_match :=
  match s with
  | [] => []
  | _ :: s' =>
      match skip with
      | S k => finditer_from p k s'
      | O =>
          match match_here p s with
          | Some (gs, n) => (gs, n) :: finditer_from p (pred n) s'
          | None => finditer_from p 0 s'
          end
      end
  end.

(** [pat.finditer(text)] *)
Definition finditer (p : pattern) (text : str) : list re_match :=
  finditer_from p 0 text.

(** [m.group(g)] *)
Fixpoint group_of (gs : list (group * str)) (g : group) : result str :=
  match gs with
  | [] => Raise IndexError
  | (g', s) :: gs' => if group_eqb g g' then Ok s else group_of gs' g
  end.

Definition m_group (m : re_match) (g : group) : result str :=
  group_of (fst m) g.

Local Open Scope Z_scope.

Definition digit_value (c : ascii) : Z := Z.of_N (code c) - 48.

(** The number that a run of decimal digits writes. *)
Definition digits_value (s : str) : Z :=
  fold_left (fun acc c => 10 * acc + digit_value c) s 0.

(** [int(s)] on a run of decimal digits.  [int] is only applied to group
    captures, which are such runs; on any other string the model raises. *)
Definition int (s : str) : result Z :=
  match s with
  | [] => Raise ValueError
  | _ :: _ =>
      if forallb is_digit s then Ok (digits_value s) else Raise ValueError
  end.

(** ** Calendar dates *)

Record date : Type := mkdate { year : Z; month : Z; day : Z }.

Definition MINYEAR : Z := 1.
Definition MAXYEAR : Z := 9999.

Definition is_leap (y : Z) : bool :=
  (y mod 4 =? 0) && (negb (y mod 100 =? 0) || (y mod 400 =? 0)).

Definition days_in_month (y m : Z) : Z :=
  if m =? 2 then (if is_leap y then 29 else 28)
  else if (m =? 4) || (m =? 6) || (m =? 9) || (m =? 11) then 30
  else 31.

(** [date(y, m, d)]: raises [ValueError] outside the calendar. *)
Definition date_new (y m d : Z) : result date :=
  if (MINYEAR <=? y) && (y <=? MAXYEAR)
     && (1 <=? m) && (m <=? 12)
     && (1 <=? d) && (d <=? days_in_month y m)
  then Ok (mkdate y m d)
  else Raise ValueError.

Definition valid_date (d : date) : Prop :=
  MINYEAR <= year d <= MAXYEAR /\ 1 <= month d <= 12 /\
  1 <= day d <= days_in_month (year d) (month d).

Definition date_eqb (a b : date) : bool :=
  (year a =? year b) && (month a =? month b) && (day a =? day b).

(** [a < b] on dates: by year, then month, then day. *)
Definition date_ltb (a b : date) : bool :=
  (year a <? year b)
  || ((year a =? year b)
      && ((month a <? month b)
          || ((month a =? month b) && (day a <? day b)))).

Definition date_lt (a b : date) : Prop := date_ltb a b = true.
Definition date_le (a b : date) : Prop := date_ltb b a = false.

Definition date_max : date := mkdate 9999 12 31.

(** [d + timedelta(days=1)]: the next calendar day; raises [OverflowError]
    past 9999-12-31. *)
Definition date_add_day (d : date) : result date :=
  if day d <? days_in_month (year d) (month d)
  then Ok (mkdate (year d) (month d) (day d + 1))
  else if month d <? 12 then Ok (mkdate (year d) (month d + 1) 1)
  else if year d <? MAXYEAR then Ok (mkdate (year d + 1) 1 1)
  else Raise OverflowError.

(** ** Date extractor *)

(** [sorted({d for d in found})]: the distinct dates in ascending order. *)
Fixpoint insert_date (d : date) (l : list date) : list date :=
  match l with
  | [] => [d]
  | x :: l' =>
      if date_ltb d x then d :: l
      else if date_eqb d x then l
      else x :: insert_date d l'
  end.

Definition sorted_set (found : list date) : list date :=
  fold_right insert_date [] found.

(** The body of the inner loop of [extract_dates] for one match: only
    [date(...)] stands inside the [try], and only [ValueError] is caught. *)
Definition scan_match (found : list date) (m : re_match)
    : result (list date) :=
  ys <- m_group m G_y ;; y <- int ys ;;
  ms <- m_group m G_m ;; mo <- int ms ;;
  ds <- m_group m G_d ;; d <- int ds ;;
  match date_new y mo d with
  | Ok dt => Ok (found ++ [dt])
  | Raise ValueError => Ok found
  | Raise e => Raise e
  end.

Definition extract_dates (text : str) : result (list date) :=
  found <- for_each
             (fun found pat => for_each scan_match (finditer pat text) found)
             DATE_PATTERNS [] ;;
  Ok (sorted_set found).

(** ** Span selector *)

(** [min(dates)] and [max(dates)] on a non-empty list [d0 :: rest]. *)
Definition min_date (d0 : date) (rest : list date) : date :=
  fold_left (fun acc d => if date_ltb d acc then d else acc) rest d0.

Definition max_date (d0 : date) (rest : list date) : date :=
  fold_left (fun acc d => if date_ltb acc d then d else acc) rest d0.

Definition choose_event_span (dates : list date)
    : result (option (date * date)) :=
  match dates with
  | [] => Ok None
  | d0 :: rest =>
      let start := min_date d0 rest in
      end_ <- date_add_day (max_date d0 rest) ;;
      Ok (Some (start, end_))
  end.

(** ** Identifier generator *)

(** [s.encode("utf-8")] on the alphabet: one byte below U+0080, two bytes
    from there to U+00FF. *)
Definition encode_utf8_char (c : ascii) : list Z :=
  let n := Z.of_N (code c) in
  if n <? 128 then [n]
  else [Z.lor 192 (Z.shiftr n 6); Z.lor 128 (Z.land n 63)].

Definition encode_utf8 (s : str) : list Z := flat_map encode_utf8_char s.

(** SHA-1 (FIPS 180-4) on 32-bit words held in [Z]. *)
Module SHA1.

Definition wrap (x : Z) : Z := x mod 2 ^ 32.
Definition add32 (x y : Z) : Z := wrap (x + y).
Definition rotl (n x : Z) : Z :=
  wrap (Z.lor (Z.shiftl x n) (Z.shiftr x (32 - n))).
Definition not32 (x : Z) : Z := Z.lxor x 4294967295.

(** The message, a single 1 bit, zeros up to 56 mod 64 bytes, then the bit
    length as a 64-bit big-endian number. *)
Definition be_bytes (count : nat) (x : Z) : list Z :=
  map (fun i => Z.land (Z.shiftr x (8 * Z.of_nat i)) 255)
      (rev (seq 0 count)).

Definition pad (msg : list Z) : list Z :=
  let len := Z.of_nat (List.length msg) in
  msg ++ [128] ++ repeat 0 (Z.to_nat ((55 - len) mod 64))
      ++ be_bytes 8 (8 * len).

Fixpoint chunks (fuel size : nat) (bs : list Z) : list (list Z) :=
  match fuel, bs with
  | S fuel', _ :: _ => firstn size bs :: chunks fuel' size (skipn size bs)
  | _, _ => []
  end.

Definition be_word (bs : list Z) : Z :=
  fold_left (fun acc b => Z.lor (Z.shiftl acc 8) b) bs 0.

Definition block_words (block : list Z) : list Z :=
  map be_word (chunks 16 4 block).

(** The message schedule: 16 words extended to 80. *)
Fixpoint extend (n : nat) (w : list Z) : list Z :=
  match n with
  | O => w
  | S n' =>
      let t := List.length w in
      let at_ k := nth (t - k) w 0 in
      extend n'
        (w ++ [rotl 1 (Z.lxor (Z.lxor (at_ 3%nat) (at_ 8%nat))
                              (Z.lxor (at_ 14%nat) (at_ 16%nat)))])
  end.

Definition state : Type := (Z * Z * Z * Z * Z)%type.

Definition H0 : state :=
  (1732584193, 4023233417, 2562383102, 271733878, 3285377520).

Definition f (t : nat) (b c d : Z) : Z :=
  if (t <? 20)%nat then Z.lor (Z.land b c) (Z.land (not32 b) d)
  else if (t <? 40)%nat then Z.lxor (Z.lxor b c) d
  else if (t <? 60)%nat
    then Z.lor (Z.lor (Z.land b c) (Z.land b d)) (Z.land c d)
  else Z.lxor (Z.lxor b c) d.

Definition K (t : nat) : Z :=
  if (t <? 20)%nat then 1518500249
  else if (t <? 40)%nat then 1859775393
  else if (t <? 60)%nat then 2400959708
  else 3395469782.

Definition round (w : list Z) (s : state) (t : nat) : state :=
  let '(a, b, c, d, e) := s in
  let temp :=
    add32 (add32 (add32 (add32 (rotl 5 a) (f t b c d)) e) (K t))
          (nth t w 0) in
  (temp, a, rotl 30 b, c, d).

Definition compress (h : state) (block : list Z) : state :=
  let w := extend 64 (block_words block) in
  let '(a, b, c, d, e) := fold_left (round w) (seq 0 80) h in
  let '(h0, h1, h2, h3, h4) := h in
  (add32 h0 a, add32 h1 b, add32 h2 c, add32 h3 d, add32 h4 e).

Definition digest (msg : list Z) : state :=
  let padded := pad msg in
  fold_left compress (chunks (List.length padded) 64 padded) H0.

Definition hex_char (n : Z) : ascii :=
  nth (Z.to_nat n) (lit "0123456789abcdef") "0"%char.

Definition hex8 (x : Z) : str :=
  map (fun i => hex_char (Z.land (Z.shiftr x (4 * Z.of_nat i)) 15))
      (rev (seq 0 8)).

(** [hashlib.sha1(msg).hexdigest()] *)
Definition hexdigest (msg : list Z) : str :=
  let '(h0, h1, h2, h3, h4) := digest msg in
  hex8 h0 ++ hex8 h1 ++ hex8 h2 ++ hex8 h3 ++ hex8 h4.

End SHA1.

Definition make_uid (link title : str) : str :=
  let h := SHA1.hexdigest (encode_utf8 (link ++ lit "|" ++ title)) in
  lit "mit-strike-" ++ h ++ lit "@milan".

(** ** Pipeline orchestrator *)

(** The date fields of a [time.struct_time]; the [time] module holds
    them as C integers, and for these [date] raises [ValueError] outside
    the calendar. *)
Record struct_time : Type :=
  mktime { tm_year : Z; tm_mon : Z; tm_mday : Z }.

(** A feed entry; [None] stands for an attribute that is missing or
    [None]. *)
Record entry : Type := mkentry {
  e_title : option str;
  e_summary : option str;
  e_description : option str;
  e_link : option str;
  published_parsed : option struct_time;
  updated_parsed : option struct_time
}.

(** The three settings that [main] reads from the environment before the
    loop. *)
Record config : Type := mkconfig {
  geo_kw : list str;
  nat_mode_kw : list str;
  include_national : bool
}.

(** The environment variables behind them; [None] is a variable that is
    not set. *)
Record environ : Type := mkenviron {
  GEO_KEYWORDS : option str;
  INCLUDE_NATIONAL : option str;
  NATIONAL_MODES : option str
}.

(** The white space of [str.strip()] on the alphabet. *)
Definition is_space (c : ascii) : bool :=
  let n := code c in
  (in_range 9 13 n || in_range 28 32 n || (n =? 133) || (n =? 160))%N.

Fixpoint lstrip (s : str) : str :=
  match s with
  | c :: s' => if is_space c then lstrip s' else s
  | [] => []
  end.

(** [s.strip()] *)
Definition strip (s : str) : str := rev (lstrip (rev (lstrip s))).

(** [s.split(",")] *)
Fixpoint split_comma (s : str) : list str :=
  match s with
  | [] => [[]]
  | c :: s' =>
      if ascii_eqb c ","%char then [] :: split_comma s'
      else
        match split_comma s' with
        | x :: xs => (c :: x) :: xs
        | [] => [[c]]
        end
  end.

(** The truth value of a string: non-empty. *)
Definition truthy (s : str) : bool :=
  match s with
  | [] => false
  | _ :: _ => true
  end.

(** [os.getenv(name, default)] on the value of the variable. *)
Definition getenv (value : option str) (default : str) : str :=
  match value with
  | Some v => v
  | None => default
  end.

Definition _env_list (value : option str) (default : list str) : list str :=
  let raw := strip (getenv value []) in
  if truthy raw
  then map strip (filter (fun x => truthy (strip x)) (split_comma raw))
  else default.

Definition str_eqb (a b : str) : bool :=
  (List.length a =? List.length b)%nat && startswith a b.

Definition _include_national (value : option str) : bool :=
  negb (existsb (str_eqb (strip (getenv value (lit "1"))))
          (map lit ["0"; "false"; "False"; "no"; "NO"]%string)).

(** The configuration that [main] builds. *)
Definition main_config (env : environ) : config :=
  {| geo_kw := _env_list (GEO_KEYWORDS env) DEFAULT_GEO_KEYWORDS;
     nat_mode_kw :=
       _env_list (NATIONAL_MODES env) DEFAULT_NATIONAL_MODE_KEYWORDS;
     include_national := _include_national (INCLUDE_NATIONAL env) |}.

(** The fields of an output event that the pipeline computes. *)
Record event : Type := mkevent {
  ev_uid : str;
  ev_dtstart : date;
  ev_dtend : date;
  ev_mode : mode_label;
  ev_scope : scope_label;
  ev_url : option str
}.

(** [a or b] for an optional string [a]: [a] when it is a non-empty
    string. *)
Definition or_str (a : option str) (b : str) : str :=
  match a with
  | Some (c :: s) => c :: s
  | _ => b
  end.

Definition newline : ascii := ascii_of_nat 10.

Definition entry_title (e : entry) : str := or_str (e_title e) [].
Definition entry_summary (e : entry) : str :=
  or_str (e_summary e) (or_str (e_description e) []).
Definition entry_link (e : entry) : str := or_str (e_link e) [].

(** [f"{title}\n{summary}\n{link}"] *)
Definition entry_blob (e : entry) : str :=
  entry_title e ++ [newline] ++ entry_summary e ++ [newline] ++ entry_link e.

(** [published_parsed or updated_parsed]: a [struct_time] is never falsy. *)
Definition entry_timestamp (e : entry) : option struct_time :=
  match published_parsed e with
  | Some t => Some t
  | None => updated_parsed e
  end.

(** The body of the loop of [main] for one entry, as far as the fields of
    the event are computed: [Ok None] is [continue], [Ok (Some ev)] gives
    the fields of the event that is built, [Raise] is an exception of the
    steps up to the choice of the span, which ends the run.  The calls of
    the calendar library that store the fields (lines 206 to 231) are not
    part of it. *)
Definition process_entry (cfg : config) (e : entry) : result (option event) :=
  let title := entry_title e in
  let link := entry_link e in
  let blob := entry_blob e in
  if negb (should_include blob (geo_kw cfg) (include_national cfg)
             (nat_mode_kw cfg))
  then Ok None
  else
    dates <- extract_dates blob ;;
    dates' <- match dates with
              | [] =>
                  match entry_timestamp e with
                  | Some pp =>
                      d <- date_new (tm_year pp) (tm_mon pp) (tm_mday pp) ;;
                      Ok [d]
                  | None => Ok dates
                  end
              | _ :: _ => Ok dates
              end ;;
    span <- choose_event_span dates' ;;
    match span with
    | None => Ok None
    | Some (dtstart, dtend) =>
        Ok (Some {| ev_uid := make_uid link title;
                    ev_dtstart := dtstart;
                    ev_dtend := dtend;
                    ev_mode := detect_mode blob;
                    ev_scope := detect_scope blob;
                    ev_url := match link with [] => None | _ => Some link end
                 |})
    end.

(** The loop of [main] over the entries of the feed, in feed order. *)
Definition main_loop (cfg : config) (entries : list entry)
    : result (list event) :=
  for_each
    (fun kept e =>
       r <- process_entry cfg e ;;
       Ok (match r with Some ev => kept ++ [ev] | None => kept end))
    entries [].

(** [main] from the environment and the parsed entries to the events of
    the calendar; fetching, parsing, the check of the parsed feed (lines
    165 to 173) and writing are left out. *)
Definition main (env : environ) (entries : list entry)
    : result (list event) :=
  main_loop (main_config env) entries.

(** * Vocabulary of the properties *)

(** What [contains] decides. *)
Definition substring (k t : str) : Prop := exists a b, t = a ++ k ++ b.

Definition national_rail_blob : str := lit "Sciopero nazionale dei treni".

Definition feed_host : str := lit "scioperi.mit.gov.it".

(** Two characters are the same letter when lower-casing identifies them;
    one text is a re-casing of another when they agree letter by letter. *)
Definition same_letter (c c' : ascii) : Prop := lower_char c = lower_char c'.
Definition recased (s s' : str) : Prop := Forall2 same_letter s s'.

Definition sharp_s : ascii := ascii_of_nat 223.






Definition lex_lt (a b : date) : Prop :=
  year a < year b \/
  (year a = year b /\
   (month a < month b \/ (month a = month b /\ day a < day b))).

Definition d_2024_03_05 : date := mkdate 2024 3 5.

(** What a pattern denotes: [match_text p gs m] says that the text [m] is
    made of the items of [p] in order, and that [gs] lists the text of each
    digit group. *)
Fixpoint match_text (p : pattern) (gs : list (group * str)) (m : str)
    : Prop :=
  match p with
  | [] => gs = [] /\ m = []
  | Sep :: p' =>
      exists c m', m = c :: m' /\ is_sep c = true /\ match_text p' gs m'
  | Digits g lo hi :: p' =>
      exists ds gs' m',
        gs = (g, ds) :: gs' /\ m = ds ++ m' /\
        forallb is_digit ds = true /\
        (lo <= List.length ds <= hi)%nat /\
        match_text p' gs' m'
  end.

(** A match forms the date [dt] when its three groups write the year, the
    month and the day of [dt] and [dt] is a date of the calendar. *)
Definition forms_date (m : re_match) (dt : date) : Prop :=
  exists ys ms ds,
    m_group m G_y = Ok ys /\ m_group m G_m = Ok ms /\ m_group m G_d = Ok ds /\
    dt = mkdate (digits_value ys) (digits_value ms) (digits_value ds) /\
    valid_date dt.

(** The groups of a match of one of the two patterns: three runs of
    digits, none empty. *)
Definition digit_run (s : str) : Prop :=
  s <> [] /\ forallb is_digit s = true.

Definition date_char (c : ascii) : bool := is_digit c || is_sep c.

(** The text before an occurrence leaves the scan free when it is empty
    or ends with a character that is neither a digit nor a separator. *)
Definition boundary (pre : str) : Prop :=
  pre = [] \/ exists pre' c, pre = pre' ++ [c] /\ date_char c = false.

Definition dmy_pattern : pattern := nth 0 DATE_PATTERNS [].
Definition ymd_pattern : pattern := nth 1 DATE_PATTERNS [].

Definition dmy_text : str := lit "05/03/2024".
Definition ymd_text : str := lit "2024-03-05".

Definition invalid_text : str := lit "31/02/2024".

Definition undated_entry (published updated : option struct_time) : entry :=
  mkentry (Some (lit "Sciopero a Milano")) None None None published updated.

(** The configuration of an empty environment, and that of an
    environment that overrides the national-mode keywords by "NAVE". *)
Definition default_config : config := main_config (mkenviron None None None).

Definition nave_environ : environ :=
  mkenviron None None (Some (lit "NAVE")).

Definition nave_config : config := main_config nave_environ.

Definition dated_entry (title : string) : entry :=
  mkentry (Some (lit title)) None None None None None.

(** A configuration with other national-mode keywords, and an
    environment with another value of NATIONAL_MODES. *)
Definition with_nat_mode_kw (cfg : config) (kws : list str) : config :=
  mkconfig (geo_kw cfg) kws (include_national cfg).

Definition with_NATIONAL_MODES (env : environ) (value : option str)
    : environ :=
  mkenviron (GEO_KEYWORDS env) (INCLUDE_NATIONAL env) value.

(** ** Vocabulary of the further properties *)

(** [",".join(kws)] *)
Fixpoint join_comma (kws : list str) : str :=
  match kws with
  | [] => []
  | [k] => k
  | k :: rest => k ++ ","%char :: join_comma rest
  end.

(** A keyword as the environment can provide it: not empty, without white
    space at either end, without a comma. *)
Definition plain_keyword (k : str) : Prop :=
  k <> [] /\ strip k = k /\ ~ In ","%char k.

Definition blank (s : str) : Prop := forallb is_space s = true.

(** The spellings that switch the national rule off. *)
Definition FALSEY : list str :=
  map lit ["0"; "false"; "False"; "no"; "NO"]%string.

(** A piece of a comma-separated value with white space around the
    keyword it stands for. *)
Definition padded (item k : str) : Prop :=
  exists ws1 ws2, item = ws1 ++ k ++ ws2 /\ blank ws1 /\ blank ws2.

(** A value made of commas and white space only. *)
Definition only_commas (raw : str) : Prop :=
  forall c, In c raw -> c = ","%char \/ is_space c = true.

(** [plain_keyword], decided. *)
Definition plain_keywordb (k : str) : bool :=
  truthy k && str_eqb (strip k) k && negb (existsb (ascii_eqb ","%char) k).

(** An entry none of whose attributes is present. *)
Definition empty_entry : entry := mkentry None None None None None None.


(** The dates that the span of an entry is chosen from: the dates of its
    blob, or else the date of its timestamp. *)
Definition candidates (e : entry) (dates : list date) : Prop :=
  (dates <> [] /\ extract_dates (entry_blob e) = Ok dates) \/
  (extract_dates (entry_blob e) = Ok [] /\
   exists pp d,
     entry_timestamp e = Some pp /\
     date_new (tm_year pp) (tm_mon pp) (tm_mday pp) = Ok d /\
     dates = [d]).

(** An entry with other timestamps. *)
Definition with_timestamps (e : entry)
    (published updated : option struct_time) : entry :=
  mkentry (e_title e) (e_summary e) (e_description e) (e_link e)
    published updated.

Definition included (cfg : config) (e : entry) : bool :=
  should_include (entry_blob e) (geo_kw cfg) (include_national cfg)
    (nat_mode_kw cfg).

(** A run of [lo] to [hi] digits. *)
Definition field (lo hi : nat) (s : str) : Prop :=
  forallb is_digit s = true /\ (lo <= List.length s <= hi)%nat.

(** The text after a greedy group does not go on with a digit. *)
Definition no_digit_ahead (rest : str) : Prop :=
  match rest with
  | [] => True
  | c :: _ => is_digit c = false
  end.

(** The bytes that [make_uid] hashes. *)
Definition uid_message (link title : str) : list Z :=
  encode_utf8 (link ++ lit "|" ++ title).

(** ** The scope lines of the description *)

(** The texts of the output hold characters beyond the alphabet of the
    feed; such a text is the list of its code points. *)
Definition ustr : Type := list N.

Definition ulit (s : string) : ustr := map code (lit s).

Definition slash : N := 47.

(** The literal of the description for a scope without a Chinese part,
    U+672A U+6CE8 U+660E. *)
Definition zh_unspecified : ustr := [0x672A; 0x6CE8; 0x660E]%N.

(** The string that [detect_scope] returns for each label. *)
Definition scope_text (s : scope_label) : ustr :=
  match s with
  | National => ulit "National / " ++ [0x5168; 0x56FD]%N
  | Regional => ulit "Regional / " ++ [0x533A; 0x57DF]%N
  | Province => ulit "Province / " ++ [0x7701; 0x7EA7]%N
  | Local => ulit "Local / " ++ [0x672C; 0x5730]%N
  | Unspecified => ulit "Unspecified / " ++ [0x672A; 0x6CE8; 0x660E]%N
  end.

(** [s.split(sep)] for a separator of one character. *)
Fixpoint usplit (sep : N) (s : ustr) : list ustr :=
  match s with
  | [] => [[]]
  | c :: s' =>
      if (c =? sep)%N then [] :: usplit sep s'
      else
        match usplit sep s' with
        | x :: xs => (c :: x) :: xs
        | [] => [[c]]
        end
  end.

(** The white space of [str.strip()] among all code points. *)
Definition u_is_space (n : N) : bool :=
  (in_range 9 13 n || in_range 28 32 n || (n =? 133) || (n =? 160)
   || (n =? 0x1680) || in_range 0x2000 0x200A n || (n =? 0x2028)
   || (n =? 0x2029) || (n =? 0x202F) || (n =? 0x205F) || (n =? 0x3000))%N.

Fixpoint ulstrip (s : ustr) : ustr :=
  match s with
  | c :: s' => if u_is_space c then ulstrip s' else s
  | [] => []
  end.

Definition ustrip (s : ustr) : ustr := rev (ulstrip (rev (ulstrip s))).

(** [xs[i]] *)
Definition index {A : Type} (xs : list A) (i : nat) : result A :=
  match nth_error xs i with
  | Some x => Ok x
  | None => Raise IndexError
  end.

(** [scope.split('/')[0].strip()] *)
Definition scope_en_part (scope : ustr) : result ustr :=
  x <- index (usplit slash scope) 0 ;; Ok (ustrip x).

(** [scope.split('/')[1].strip() if '/' in scope else] the literal. *)
Definition scope_zh_part (scope : ustr) : result ustr :=
  if existsb (N.eqb slash) scope
  then x <- index (usplit slash scope) 1 ;; Ok (ustrip x)
  else Ok zh_unspecified.

(** ** The span of an entry *)

(** The part of the loop body of [main] that finds the dates of an entry,
    falls back to its timestamp and chooses the span (lines 193 to 198). *)
Definition entry_span (e : entry) : result (option (date * date)) :=
  dates <- extract_dates (entry_blob e) ;;
  dates' <- match dates with
            | [] =>
                match entry_timestamp e with
                | Some pp =>
                    d <- date_new (tm_year pp) (tm_mon pp) (tm_mday pp) ;;
                    Ok [d]
                | None => Ok dates
                end
            | _ :: _ => Ok dates
            end ;;
  choose_event_span dates'.

(** * Properties *)

(** ** Facts about strings *)

Lemma startswith_spec (k t : str) :
  startswith k t = true <-> exists b, t = k ++ b.
Proof.
  revert t; induction k as [|a k IH]; intros t; simpl.
  - split; [intros _; now exists t | reflexivity].
  - destruct t as [|b t].
    + split; [discriminate | intros [x H]; discriminate].
    + rewrite andb_true_iff, IH. unfold ascii_eqb. rewrite Ascii.eqb_eq.
      split.
      * intros [-> [x ->]]. now exists x.
      * intros [x H]. injection H as -> ->. split; [reflexivity | now exists x].
Qed.

Lemma contains_spec (k t : str) : contains k t = true <-> substring k t.
Proof.
  unfold substring. induction t as [|c t IH].
  - cbn [contains]. rewrite orb_false_r, startswith_spec. split.
    + intros [b H]. now exists [], b.
    + intros [a [b H]]. destruct a; simpl in H; [now exists b | discriminate].
  - cbn [contains]. rewrite orb_true_iff, startswith_spec, IH. split.
    + intros [[b H] | [a [b H]]].
      * now exists [], b.
      * exists (c :: a), b. simpl. now rewrite H.
    + intros [a [b H]]. destruct a as [|x a]; simpl in H.
      * left. now exists b.
      * right. injection H as _ ->. now exists a, b.
Qed.

Lemma substring_app_l (k t pre : str) : substring k t -> substring k (pre ++ t).
Proof.
  intros [a [b ->]]. exists (pre ++ a), b. now rewrite <- app_assoc.
Qed.

Lemma substring_trans (k m t : str) :
  substring k m -> substring m t -> substring k t.
Proof.
  intros [a [b ->]] [a' [b' ->]]. exists (a' ++ a), (b ++ b').
  now rewrite <- !app_assoc.
Qed.

Lemma lower_app (a b : str) : lower (a ++ b) = lower a ++ lower b.
Proof. apply map_app. Qed.

Lemma substring_lower (k t : str) :
  substring k t -> substring (lower k) (lower t).
Proof.
  intros [a [b ->]]. exists (lower a), (lower b). now rewrite !lower_app.
Qed.

(** A decidable property of characters holds of all 256 once it has been
    evaluated on each. *)
Lemma forall_chars (P : ascii -> bool) :
  forallb P (map ascii_of_nat (seq 0 256)) = true -> forall c, P c = true.
Proof.
  intros H c. rewrite forallb_forall in H. apply H.
  rewrite <- (ascii_nat_embedding c). apply in_map, in_seq.
  pose proof (nat_ascii_bounded c). lia.
Qed.

Lemma lower_char_idem (c : ascii) : lower_char (lower_char c) = lower_char c.
Proof.
  apply Ascii.eqb_eq. revert c. apply forall_chars. vm_compute. reflexivity.
Qed.

Lemma lower_idem (s : str) : lower (lower s) = lower s.
Proof.
  unfold lower. rewrite map_map. apply map_ext. exact lower_char_idem.
Qed.

(** ** The keyword matcher, declaratively *)

Lemma matches_any_loop_spec (t : str) (kws : list str) :
  matches_any_loop t kws = true <->
  exists k, In k kws /\ substring (lower k) t.
Proof.
  induction kws as [|k kws IH]; simpl.
  - split; [discriminate | intros [k [[] _]]].
  - destruct (contains (lower k) t) eqn:E.
    + split; [intros _ | reflexivity].
      exists k. split; [now left | now apply contains_spec].
    + rewrite IH. split.
      * intros [k' [Hin Hs]]. exists k'. split; [now right | exact Hs].
      * intros [k' [[<- | Hin] Hs]].
        -- apply contains_spec in Hs. congruence.
        -- now exists k'.
Qed.

Lemma matches_any_spec (text : str) (kws : list str) :
  matches_any text kws = true <->
  exists k, In k kws /\ substring (lower k) (lower text).
Proof. apply matches_any_loop_spec. Qed.

(** ** Inclusion decider *)

(** C1, the claim as stated fails: "FERROVI" is a rail term, one of the
    default national-mode keywords and classified as rail by
    [detect_mode], but it does not occur in "Sciopero nazionale dei
    treni"; with the flag set and this rail term as the only
    national-mode keyword the blob is not included. *)
Lemma should_include_other_rail_term :
  In (lit "FERROVI") DEFAULT_NATIONAL_MODE_KEYWORDS /\
  In (lit "ferrovi") RAIL_TERMS /\
  detect_mode (lit "FERROVI") = Rail /\
  matches_any national_rail_blob [lit "FERROVI"] = false /\
  should_include national_rail_blob [] true [lit "FERROVI"] = false.
Proof.
  split; [vm_compute; tauto|]. split; [vm_compute; tauto|].
  repeat split; reflexivity.
Qed.

(** C1, amended.  [should_include] returns true exactly when the blob
    matches a geographic keyword (case-insensitive substring), or the
    include-national flag is set, the lower-cased blob contains
    "nazionale" and the blob matches a national-mode keyword.  For the
    blob "Sciopero nazionale dei treni" it returns true whenever the flag
    is set and the national-mode keywords include the rail term the blob
    names ("treni" in any letter case), whatever the geographic keywords
    are; with the default lists no geographic keyword matches this blob
    and it is included.  Without geographic keywords and with the flag
    set, this blob is included exactly when some national-mode keyword
    occurs in it, letter case aside; of the rail terms of [detect_mode]
    taken alone, "treni" is the only one that does. *)
Theorem should_include_policy :
  (forall (blob : str) (geo : list str) (flag : bool) (nat_kw : list str),
      should_include blob geo flag nat_kw = true <->
      (exists k, In k geo /\ substring (lower k) (lower blob)) \/
      (flag = true /\
       substring (lit "nazionale") (lower blob) /\
       exists k, In k nat_kw /\ substring (lower k) (lower blob))) /\
  (forall (geo nat_kw : list str) (k : str),
      In k nat_kw -> lower k = lit "treni" ->
      should_include national_rail_blob geo true nat_kw = true) /\
  matches_any national_rail_blob DEFAULT_GEO_KEYWORDS = false /\
  In (lit "TRENI") DEFAULT_NATIONAL_MODE_KEYWORDS /\
  should_include national_rail_blob DEFAULT_GEO_KEYWORDS true
    DEFAULT_NATIONAL_MODE_KEYWORDS = true /\
  should_include national_rail_blob [] true [lit "treni"] = true /\
  (forall nat_kw : list str,
      should_include national_rail_blob [] true nat_kw = true <->
      exists k, In k nat_kw /\
                substring (lower k) (lit "sciopero nazionale dei treni")) /\
  (forall k : str,
      In k RAIL_TERMS ->
      (should_include national_rail_blob [] true [k] = true <->
       k = lit "treni")).
Proof.
  assert (Hiff : forall blob geo flag nat_kw,
      should_include blob geo flag nat_kw = true <->
      (exists k, In k geo /\ substring (lower k) (lower blob)) \/
      (flag = true /\
       substring (lit "nazionale") (lower blob) /\
       exists k, In k nat_kw /\ substring (lower k) (lower blob))).
  { intros blob geo flag nat_kw. unfold should_include.
    rewrite <- !matches_any_spec, <- contains_spec.
    destruct (matches_any blob geo); [tauto|].
    destruct flag; [|intuition discriminate].
    destruct (contains (lit "nazionale") (lower blob));
      destruct (matches_any blob nat_kw); simpl; intuition discriminate. }
  split; [exact Hiff|]. split.
  - intros geo nat_kw k Hin Hk. apply Hiff. right.
    split; [reflexivity|]. split.
    + apply contains_spec. reflexivity.
    + exists k. split; [exact Hin|]. rewrite Hk. apply contains_spec.
      reflexivity.
  - split; [reflexivity|]. split; [vm_compute; tauto|].
    split; [reflexivity|]. split; [reflexivity|]. split.
    + intros nat_kw. rewrite Hiff. split.
      * intros [(k & [] & _) | (_ & _ & H)]. exact H.
      * intros H. right. split; [reflexivity|]. split; [|exact H].
        apply contains_spec. reflexivity.
    + intros k Hk. unfold RAIL_TERMS in Hk. cbn [map In] in Hk.
      destruct Hk as [<-|[<-|[<-|[<-|[<-|[<-|[]]]]]]];
        (split; [intros H; vm_compute in H; (discriminate H || reflexivity)
                | intros H; vm_compute in H; (discriminate H || reflexivity)]).
Qed.

(** The rule applied to the default configuration: the blob of C1 is
    included through the rail keyword of the default national-mode list. *)
Lemma should_include_policy_witness :
  should_include national_rail_blob DEFAULT_GEO_KEYWORDS true
    DEFAULT_NATIONAL_MODE_KEYWORDS = true.
Proof.
  apply (proj1 (proj2 should_include_policy)) with (k := lit "TRENI").
  - vm_compute. tauto.
  - reflexivity.
Defined.

Lemma matches_any_default_geo_mi (blob : str) :
  substring (lit "mi") (lower blob) ->
  matches_any blob DEFAULT_GEO_KEYWORDS = true.
Proof.
  intros H. apply matches_any_spec. exists (lit "MI").
  split; [vm_compute; tauto | exact H].
Qed.

(** C9.  With the default geographic keywords, which contain "MI",
    [should_include] is true for every blob whose lower-casing contains
    "mi", whatever the flag and the national-mode keywords; in particular
    for the blob of every entry whose link contains the host of the default
    feed, "scioperi.mit.gov.it". *)
Theorem default_geo_includes_every_mi :
  In (lit "MI") DEFAULT_GEO_KEYWORDS /\
  (forall (blob : str) (flag : bool) (nat_kw : list str),
      substring (lit "mi") (lower blob) ->
      should_include blob DEFAULT_GEO_KEYWORDS flag nat_kw = true) /\
  (forall (e : entry) (flag : bool) (nat_kw : list str),
      substring feed_host (entry_link e) ->
      should_include (entry_blob e) DEFAULT_GEO_KEYWORDS flag nat_kw = true).
Proof.
  split; [vm_compute; tauto|].
  assert (Hmi : forall blob flag nat_kw,
             substring (lit "mi") (lower blob) ->
             should_include blob DEFAULT_GEO_KEYWORDS flag nat_kw = true).
  { intros blob flag nat_kw H. unfold should_include.
    now rewrite (matches_any_default_geo_mi blob H). }
  split; [exact Hmi|].
  intros e flag nat_kw H. apply Hmi.
  apply substring_trans with (m := lower feed_host).
  - apply contains_spec. reflexivity.
  - apply substring_lower. unfold entry_blob.
    rewrite !app_assoc. now apply substring_app_l.
Qed.

Lemma default_geo_includes_every_mi_witness :
  should_include
    (entry_blob
       (mkentry (Some (lit "Sciopero a Roma")) None None
          (Some (lit "https://scioperi.mit.gov.it/mit2/public/scioperi/1"))
          None None))
    DEFAULT_GEO_KEYWORDS false [] = true.
Proof.
  apply (proj2 (proj2 default_geo_includes_every_mi)).
  apply contains_spec. reflexivity.
Defined.

(** ** Case-insensitivity of the matcher *)

Lemma recased_lower_eq (s s' : str) : recased s s' -> lower s = lower s'.
Proof.
  induction 1 as [|c c' s s' Hc _ IH]; simpl; [reflexivity|].
  now rewrite Hc, IH.
Qed.

Lemma recased_lower (s : str) : recased s (lower s).
Proof.
  induction s as [|c s IH]; constructor; [|exact IH].
  unfold same_letter. now rewrite lower_char_idem.
Qed.

Lemma upper_char_same_letter (c : ascii) (u : str) :
  upper_char c = Some u -> c <> sharp_s ->
  exists c', u = [c'] /\ same_letter c c'.
Proof.
  intros H Hc.
  pose proof (forall_chars
    (fun c => ascii_eqb c sharp_s ||
              match upper_char c with
              | Some [c'] => ascii_eqb (lower_char c) (lower_char c')
              | Some _ => false
              | None => true
              end) eq_refl c) as E.
  cbv beta in E. apply orb_true_iff in E. destruct E as [E | E].
  - apply Ascii.eqb_eq in E. contradiction.
  - rewrite H in E. destruct u as [|c' [|]]; try discriminate.
    exists c'. split; [reflexivity | now apply Ascii.eqb_eq].
Qed.

Lemma recased_upper (s u : str) :
  upper s = Some u -> ~ In sharp_s s -> recased s u.
Proof.
  revert u; induction s as [|c s IH]; intros u H Hs; simpl in H.
  - injection H as <-. constructor.
  - destruct (upper_char c) as [uc|] eqn:Ec; [|discriminate].
    destruct (upper s) as [us|]; [|discriminate]. injection H as <-.
    destruct (upper_char_same_letter c uc Ec) as [c' [-> Hc]].
    + intros ->. apply Hs. now left.
    + constructor; [exact Hc|]. apply IH; [reflexivity|].
      intros Hin. apply Hs. now right.
Qed.

Lemma matches_any_loop_lower_kws (t : str) (kws kws' : list str) :
  map lower kws = map lower kws' ->
  matches_any_loop t kws = matches_any_loop t kws'.
Proof.
  revert kws'; induction kws as [|k kws IH]; intros [|k' kws'] H;
    simpl in H; try discriminate; [reflexivity|].
  injection H as Hk Hr. simpl. rewrite Hk, (IH kws' Hr). reflexivity.
Qed.

Lemma matches_any_recased (text text' : str) (kws kws' : list str) :
  recased text text' -> Forall2 recased kws kws' ->
  matches_any text' kws' = matches_any text kws.
Proof.
  intros Ht Hk. unfold matches_any. rewrite (recased_lower_eq _ _ Ht).
  apply matches_any_loop_lower_kws.
  induction Hk as [|k k' kws kws' Hkk _ IH]; simpl; [reflexivity|].
  now rewrite (recased_lower_eq _ _ Hkk), IH.
Qed.

Lemma Forall2_refl_recased (kws : list str) : Forall2 recased kws kws.
Proof.
  induction kws as [|k kws IH]; constructor; [|exact IH].
  induction k; constructor; [reflexivity | assumption].
Qed.

Lemma recased_refl (s : str) : recased s s.
Proof. induction s; constructor; [reflexivity | assumption]. Qed.

(** C8, the claim as stated fails: upper-casing the text "ß" (U+00DF) gives
    "SS", whose lower-casing "ss" no longer contains the keyword "ß"; the
    same happens when the keyword is upper-cased instead. *)
Lemma matches_any_upper_sharp_s :
  upper [sharp_s] = Some (lit "SS") /\
  matches_any [sharp_s] [[sharp_s]] = true /\
  matches_any (lit "SS") [[sharp_s]] = false /\
  matches_any [sharp_s] [lit "SS"] = false.
Proof. repeat split. Qed.

(** C8, amended.  [matches_any] is invariant under every change of letter
    case that lower-casing undoes, in the text and in each keyword:
    re-casing letter by letter, lower-casing the text, lower-casing the
    keywords, and upper-casing a text or keywords without "ß". *)
Theorem matches_any_case_insensitive (text : str) (kws : list str) :
  (forall (text' : str) (kws' : list str),
      lower text' = lower text -> map lower kws' = map lower kws ->
      matches_any text' kws' = matches_any text kws) /\
  (forall (text' : str) (kws' : list str),
      recased text text' -> Forall2 recased kws kws' ->
      matches_any text' kws' = matches_any text kws) /\
  matches_any (lower text) kws = matches_any text kws /\
  matches_any text (map lower kws) = matches_any text kws /\
  (forall u : str,
      upper text = Some u -> ~ In sharp_s text ->
      matches_any u kws = matches_any text kws) /\
  (forall (k u : str) (kws1 kws2 : list str),
      kws = kws1 ++ k :: kws2 -> upper k = Some u -> ~ In sharp_s k ->
      matches_any text (kws1 ++ u :: kws2) = matches_any text kws).
Proof.
  split.
  { intros text' kws' Ht Hk. unfold matches_any. rewrite Ht.
    now apply matches_any_loop_lower_kws. }
  split; [intros; now apply matches_any_recased|].
  split; [apply matches_any_recased;
          [apply recased_lower | apply Forall2_refl_recased]|].
  split.
  - apply matches_any_recased; [apply recased_refl|].
    induction kws as [|k kws' IH]; constructor;
      [apply recased_lower | exact IH].
  - split.
    + intros u Hu Hs. apply matches_any_recased;
        [now apply recased_upper | apply Forall2_refl_recased].
    + intros k u kws1 kws2 -> Hu Hs. apply matches_any_recased;
        [apply recased_refl|].
      apply Forall2_app; [apply Forall2_refl_recased|].
      constructor; [now apply recased_upper | apply Forall2_refl_recased].
Qed.

Lemma matches_any_case_insensitive_witness :
  matches_any (lit "SCIOPERO A MILANO") [lit "milano"] =
  matches_any (lit "Sciopero a Milano") [lit "MILANO"].
Proof.
  apply (proj1 (matches_any_case_insensitive (lit "Sciopero a Milano")
                  [lit "MILANO"])); reflexivity.
Defined.

(** ** Identifier generator *)











(** C10.  The text that is hashed does not separate the two fields:
    moving a "|" from the link to the title leaves it, and so the
    identifier, unchanged. *)
Theorem make_uid_not_injective :
  (forall a b c : str,
      make_uid (a ++ lit "|" ++ b) c = make_uid a (b ++ lit "|" ++ c)) /\
  (lit "x|y", lit "z") <> (lit "x", lit "y|z") /\
  make_uid (lit "x|y") (lit "z") = make_uid (lit "x") (lit "y|z").
Proof.
  assert (H : forall a b c : str,
             make_uid (a ++ lit "|" ++ b) c = make_uid a (b ++ lit "|" ++ c)).
  { intros a b c. unfold make_uid. now rewrite <- !app_assoc. }
  split; [exact H|]. split; [discriminate|].
  exact (H (lit "x") (lit "y") (lit "z")).
Qed.

(** ** The order of dates and the next day *)

Lemma date_ltb_iff (a b : date) : date_ltb a b = true <-> lex_lt a b.
Proof.
  unfold date_ltb, lex_lt.
  rewrite !orb_true_iff, !andb_true_iff, !orb_true_iff, !andb_true_iff,
    !Z.ltb_lt, !Z.eqb_eq.
  tauto.
Qed.

Lemma date_ltb_false_iff (a b : date) : date_ltb a b = false <-> ~ lex_lt a b.
Proof. rewrite <- date_ltb_iff. symmetry. apply not_true_iff_false. Qed.

Lemma date_eqb_eq (a b : date) : date_eqb a b = true <-> a = b.
Proof.
  unfold date_eqb. rewrite !andb_true_iff, !Z.eqb_eq.
  destruct a, b; simpl. split.
  - intros [[-> ->] ->]. reflexivity.
  - intros H. injection H as -> -> ->. auto.
Qed.

Lemma date_ext (a b : date) :
  year a = year b -> month a = month b -> day a = day b -> a = b.
Proof. destruct a, b; simpl. intros -> -> ->. reflexivity. Qed.

(** Turns the order of dates in the goal and the context into linear
    arithmetic on the fields. *)
Ltac date_order :=
  unfold date_lt, date_le in *;
  rewrite ?date_ltb_iff, ?date_ltb_false_iff in *;
  unfold lex_lt in *.

Lemma date_lt_irrefl (a : date) : ~ date_lt a a.
Proof. date_order. lia. Qed.

Lemma date_lt_trans (a b c : date) : date_lt a b -> date_lt b c -> date_lt a c.
Proof. date_order. lia. Qed.

Lemma date_le_refl (a : date) : date_le a a.
Proof. date_order. lia. Qed.

Lemma date_le_trans (a b c : date) : date_le a b -> date_le b c -> date_le a c.
Proof. date_order. lia. Qed.

Lemma date_le_lt_trans (a b c : date) :
  date_le a b -> date_lt b c -> date_lt a c.
Proof. date_order. lia. Qed.

Lemma date_le_antisym (a b : date) : date_le a b -> date_le b a -> a = b.
Proof. intros H1 H2. apply date_ext; date_order; lia. Qed.

Lemma days_in_month_bounds (y m : Z) : 28 <= days_in_month y m <= 31.
Proof.
  unfold days_in_month.
  destruct (m =? 2); [destruct (is_leap y); lia|].
  destruct ((m =? 4) || (m =? 6) || (m =? 9) || (m =? 11)); lia.
Qed.

Lemma date_new_ok (y m d : Z) (dt : date) :
  date_new y m d = Ok dt <-> dt = mkdate y m d /\ valid_date (mkdate y m d).
Proof.
  unfold date_new, valid_date. simpl.
  destruct ((MINYEAR <=? y) && (y <=? MAXYEAR) && (1 <=? m) && (m <=? 12)
            && (1 <=? d) && (d <=? days_in_month y m)) eqn:E.
  - rewrite !andb_true_iff, !Z.leb_le in E. split.
    + intros H. injection H as <-. split; [reflexivity | lia].
    + intros [-> _]. reflexivity.
  - split; [discriminate|]. intros [_ H].
    rewrite <- not_true_iff_false in E. exfalso. apply E.
    rewrite !andb_true_iff, !Z.leb_le. lia.
Qed.

(** [date] raises nothing but [ValueError]. *)
Lemma date_new_raise (y m d : Z) (e : exn) :
  date_new y m d = Raise e -> e = ValueError.
Proof.
  unfold date_new. destruct (_ && _); [discriminate|]. congruence.
Qed.

Lemma date_max_greatest (d : date) : valid_date d -> date_le d date_max.
Proof.
  unfold valid_date, MAXYEAR. intros H.
  pose proof (days_in_month_bounds (year d) (month d)).
  date_order. simpl. lia.
Qed.

(** The day that [date_add_day] returns is the successor in the calendar:
    a valid date after [d] with no valid date in between. *)
Lemma date_add_day_next (d d' : date) :
  valid_date d -> date_add_day d = Ok d' ->
  valid_date d' /\ date_lt d d' /\
  forall x, valid_date x -> date_lt d x -> date_le d' x.
Proof.
  unfold valid_date, date_add_day, MINYEAR, MAXYEAR.
  intros (Hy & Hm & Hd) H.
  destruct (day d <? days_in_month (year d) (month d)) eqn:E1.
  - apply Z.ltb_lt in E1. injection H as <-. cbn [year month day].
    split; [lia|]. split; date_order; cbn [year month day]; [lia|].
    intros x (_ & _ & Hxd) Hx. date_order. cbn [year month day].
      assert (year x = year d -> month x = month d ->
              days_in_month (year x) (month x)
              = days_in_month (year d) (month d))
        by (intros Ey Em; now rewrite Ey, Em).
      lia.
  - apply Z.ltb_ge in E1. destruct (month d <? 12) eqn:E2.
    + apply Z.ltb_lt in E2. injection H as <-. cbn [year month day].
      pose proof (days_in_month_bounds (year d) (month d + 1)).
      split; [lia|]. split; date_order; cbn [year month day]; [lia|].
      intros x (_ & _ & Hxd) Hx. date_order. cbn [year month day].
      assert (year x = year d -> month x = month d ->
              days_in_month (year x) (month x)
              = days_in_month (year d) (month d))
        by (intros Ey Em; now rewrite Ey, Em).
      lia.
    + apply Z.ltb_ge in E2. destruct (year d <? 9999) eqn:E3; [|discriminate].
      apply Z.ltb_lt in E3. injection H as <-. cbn [year month day].
      pose proof (days_in_month_bounds (year d + 1) 1).
      split; [lia|]. split; date_order; cbn [year month day]; [lia|].
      intros x (_ & Hxm & Hxd) Hx. date_order. cbn [year month day].
      assert (year x = year d -> month x = month d ->
              days_in_month (year x) (month x)
              = days_in_month (year d) (month d))
        by (intros Ey Em; now rewrite Ey, Em).
      lia.
Qed.

Lemma date_add_day_lt (d d' : date) : date_add_day d = Ok d' -> date_lt d d'.
Proof.
  unfold date_add_day. intros H.
  destruct (day d <? days_in_month (year d) (month d)) eqn:E1.
  - injection H as <-. date_order. cbn [year month day]. lia.
  - destruct (month d <? 12) eqn:E2.
    + injection H as <-. date_order. cbn [year month day]. lia.
    + destruct (year d <? MAXYEAR) eqn:E3; [|discriminate].
      injection H as <-. date_order. cbn [year month day]. lia.
Qed.

(** Among valid dates, only 9999-12-31 has no next day. *)
Lemma date_add_day_total (d : date) :
  valid_date d -> d <> date_max -> exists d', date_add_day d = Ok d'.
Proof.
  unfold valid_date, date_add_day, MINYEAR, MAXYEAR.
  intros (Hy & Hm & Hd) Hne.
  destruct (day d <? days_in_month (year d) (month d)) eqn:E1;
    [eexists; reflexivity|].
  destruct (month d <? 12) eqn:E2; [eexists; reflexivity|].
  destruct (year d <? 9999) eqn:E3; [eexists; reflexivity|].
  exfalso. apply Hne. apply Z.ltb_ge in E1, E2, E3.
  assert (Em : month d = 12) by lia. assert (Ey : year d = 9999) by lia.
  rewrite Em, Ey in E1, Hd. change (days_in_month 9999 12) with 31 in *.
  apply date_ext; simpl; lia.
Qed.

(** ** Span selector *)

Lemma min_date_spec (d0 : date) (rest : list date) :
  In (min_date d0 rest) (d0 :: rest) /\
  forall d, In d (d0 :: rest) -> date_le (min_date d0 rest) d.
Proof.
  unfold min_date. revert d0. induction rest as [|x rest IH]; intros d0.
  - simpl. split; [now left|]. intros d [<- | []]. apply date_le_refl.
  - cbn [fold_left].
    destruct (IH (if date_ltb x d0 then x else d0)) as [Hin Hle].
    split.
    + destruct Hin as [Hin | Hin]; [|now right; right].
      rewrite <- Hin. destruct (date_ltb x d0); [right; now left | now left].
    + intros d Hd.
      assert (Hacc : date_le (if date_ltb x d0 then x else d0) d0 /\
                     date_le (if date_ltb x d0 then x else d0) x).
      { destruct (date_ltb x d0) eqn:E; date_order; lia. }
      destruct Hd as [<- | [<- | Hd]].
      * eapply date_le_trans; [apply Hle; now left | apply Hacc].
      * eapply date_le_trans; [apply Hle; now left | apply Hacc].
      * apply Hle. now right.
Qed.

Lemma max_date_spec (d0 : date) (rest : list date) :
  In (max_date d0 rest) (d0 :: rest) /\
  forall d, In d (d0 :: rest) -> date_le d (max_date d0 rest).
Proof.
  unfold max_date. revert d0. induction rest as [|x rest IH]; intros d0.
  - simpl. split; [now left|]. intros d [<- | []]. apply date_le_refl.
  - cbn [fold_left].
    destruct (IH (if date_ltb d0 x then x else d0)) as [Hin Hle].
    split.
    + destruct Hin as [Hin | Hin]; [|now right; right].
      rewrite <- Hin. destruct (date_ltb d0 x); [right; now left | now left].
    + intros d Hd.
      assert (Hacc : date_le d0 (if date_ltb d0 x then x else d0) /\
                     date_le x (if date_ltb d0 x then x else d0)).
      { destruct (date_ltb d0 x) eqn:E; date_order; lia. }
      destruct Hd as [<- | [<- | Hd]].
      * eapply date_le_trans; [apply Hacc | apply Hle; now left].
      * eapply date_le_trans; [apply Hacc | apply Hle; now left].
      * apply Hle. now right.
Qed.

(** C3, the claim as stated fails: the span of the set {9999-12-31}, a date
    that [extract_dates] returns for the text "31/12/9999", is not
    returned; the addition of one day raises [OverflowError]. *)
Lemma choose_event_span_overflow :
  extract_dates (lit "31/12/9999") = Ok [date_max] /\
  choose_event_span [date_max] = Raise OverflowError.
Proof. split; vm_compute; reflexivity. Qed.

(** C3, amended.  [choose_event_span] returns no span for the empty list;
    for every non-empty list of dates without 9999-12-31 it returns the
    earliest date as start and the day after the latest date as end, so
    the start is before the end; a single date [d] gives the one-day span
    ([d], next day), and {2024-03-05, 2024-03-07} gives
    (2024-03-05, 2024-03-08). *)
Theorem choose_event_span_spec :
  choose_event_span [] = Ok None /\
  (forall dates : list date,
      dates <> [] -> Forall valid_date dates -> ~ In date_max dates ->
      exists start latest end_,
        choose_event_span dates = Ok (Some (start, end_)) /\
        In start dates /\ (forall d, In d dates -> date_le start d) /\
        In latest dates /\ (forall d, In d dates -> date_le d latest) /\
        date_add_day latest = Ok end_ /\
        valid_date end_ /\
        (forall x, valid_date x -> date_lt latest x -> date_le end_ x) /\
        date_lt start end_) /\
  (forall d : date,
      valid_date d -> d <> date_max ->
      exists d', date_add_day d = Ok d' /\
                 choose_event_span [d] = Ok (Some (d, d'))) /\
  choose_event_span [mkdate 2024 3 5]
  = Ok (Some (mkdate 2024 3 5, mkdate 2024 3 6)) /\
  choose_event_span [mkdate 2024 3 5; mkdate 2024 3 7]
  = Ok (Some (mkdate 2024 3 5, mkdate 2024 3 8)) /\
  choose_event_span [mkdate 2024 3 7; mkdate 2024 3 5]
  = Ok (Some (mkdate 2024 3 5, mkdate 2024 3 8)).
Proof.
  split; [reflexivity|]. split; [|split; [|repeat split]].
  - intros [|d0 rest] Hne Hvalid Hmax; [congruence|].
    destruct (min_date_spec d0 rest) as [Hmin_in Hmin].
    destruct (max_date_spec d0 rest) as [Hmax_in Hmax_le].
    assert (Hv : valid_date (max_date d0 rest)).
    { rewrite Forall_forall in Hvalid. now apply Hvalid. }
    destruct (date_add_day_total (max_date d0 rest) Hv) as [e He].
    { intros E. apply Hmax. now rewrite <- E. }
    destruct (date_add_day_next _ _ Hv He) as (Hve & Hlt & Hnext).
    exists (min_date d0 rest), (max_date d0 rest), e.
    split; [unfold choose_event_span; now rewrite He|].
    repeat (split; [assumption|]).
    eapply date_le_lt_trans; [apply Hmin, Hmax_in | exact Hlt].
  - intros d Hv Hne. destruct (date_add_day_total d Hv Hne) as [d' Hd'].
    exists d'. split; [exact Hd'|].
    unfold choose_event_span, max_date, min_date. simpl. now rewrite Hd'.
Qed.

Lemma choose_event_span_spec_witness :
  exists start latest end_,
    choose_event_span [mkdate 2024 2 28; mkdate 2024 2 29]
    = Ok (Some (start, end_)) /\
    In start [mkdate 2024 2 28; mkdate 2024 2 29] /\
    (forall d, In d [mkdate 2024 2 28; mkdate 2024 2 29] -> date_le start d) /\
    In latest [mkdate 2024 2 28; mkdate 2024 2 29] /\
    (forall d, In d [mkdate 2024 2 28; mkdate 2024 2 29] -> date_le d latest) /\
    date_add_day latest = Ok end_ /\
    valid_date end_ /\
    (forall x, valid_date x -> date_lt latest x -> date_le end_ x) /\
    date_lt start end_.
Proof.
  apply (proj1 (proj2 choose_event_span_spec)).
  - discriminate.
  - repeat constructor; vm_compute; intuition discriminate.
  - simpl. intuition discriminate.
Defined.

(** ** Sorting and deduplication *)

Lemma insert_date_in (d x : date) (l : list date) :
  In x (insert_date d l) <-> x = d \/ In x l.
Proof.
  induction l as [|y l IH]; simpl.
  - intuition.
  - destruct (date_ltb d y); [simpl; intuition|].
    destruct (date_eqb d y) eqn:E.
    + apply date_eqb_eq in E. subst y. simpl. intuition.
    + simpl. rewrite IH. intuition.
Qed.

Lemma insert_date_sorted (d : date) (l : list date) :
  StronglySorted date_lt l -> StronglySorted date_lt (insert_date d l).
Proof.
  induction 1 as [|y l Hs IH Hy]; simpl.
  - repeat constructor.
  - destruct (date_ltb d y) eqn:E1.
    + constructor; [now constructor|].
      constructor; [exact E1|].
      rewrite Forall_forall in *. intros x Hx.
      eapply date_lt_trans; [exact E1 | now apply Hy].
    + destruct (date_eqb d y) eqn:E2; [now constructor|].
      constructor; [exact IH|].
      rewrite Forall_forall in *. intros x Hx.
      apply insert_date_in in Hx. destruct Hx as [-> | Hx]; [|now apply Hy].
      assert (Hne : d <> y).
      { intros ->. rewrite (proj2 (date_eqb_eq y y) eq_refl) in E2.
        discriminate. }
      destruct (date_ltb y d) eqn:E3; [exact E3|].
      exfalso. apply Hne. now apply date_le_antisym.
Qed.

Lemma sorted_set_in (x : date) (found : list date) :
  In x (sorted_set found) <-> In x found.
Proof.
  unfold sorted_set. induction found as [|d found IH]; simpl; [tauto|].
  rewrite insert_date_in, IH. intuition.
Qed.

Lemma sorted_set_sorted (found : list date) :
  StronglySorted date_lt (sorted_set found).
Proof.
  unfold sorted_set. induction found as [|d found IH]; simpl.
  - constructor.
  - now apply insert_date_sorted.
Qed.

Lemma strictly_sorted_NoDup (l : list date) :
  StronglySorted date_lt l -> NoDup l.
Proof.
  induction 1 as [|y l Hs IH Hy]; constructor; [|exact IH].
  intros Hin. rewrite Forall_forall in Hy.
  exact (date_lt_irrefl y (Hy y Hin)).
Qed.

(** ** The matcher against the notation *)

Lemma first_some_in {A B : Type} (f : A -> option B) (xs : list A) (b : B) :
  first_some f xs = Some b -> exists x, In x xs /\ f x = Some b.
Proof.
  induction xs as [|x xs IH]; simpl; [discriminate|].
  destruct (f x) as [b'|] eqn:E.
  - intros H. injection H as <-. exists x. split; [now left | exact E].
  - intros H. destruct (IH H) as [x' [Hin Hx']]. exists x'.
    split; [now right | exact Hx'].
Qed.

Lemma counts_in (lo hi n : nat) : In n (counts lo hi) -> (lo <= n <= hi)%nat.
Proof.
  unfold counts. rewrite <- in_rev, in_seq. lia.
Qed.

Lemma take_digits_some (n : nat) (s ds rest : str) :
  take_digits n s = Some (ds, rest) ->
  s = ds ++ rest /\ List.length ds = n /\ forallb is_digit ds = true.
Proof.
  unfold take_digits.
  destruct ((List.length (firstn n s) =? n)%nat
            && forallb is_digit (firstn n s)) eqn:E; [|discriminate].
  apply andb_true_iff in E. destruct E as [E1 E2]. apply Nat.eqb_eq in E1.
  intros H. injection H as <- <-.
  split; [symmetry; apply firstn_skipn | split; assumption].
Qed.

(** [match_here] is sound: what it reports is a prefix of the text that is
    written in the notation of the pattern. *)
Lemma match_here_sound (p : pattern) (s : str) (gs : list (group * str))
    (n : nat) :
  match_here p s = Some (gs, n) ->
  exists m rest, s = m ++ rest /\ List.length m = n /\ match_text p gs m.
Proof.
  revert s gs n. induction p as [|a p IH]; intros s gs n H.
  - simpl in H. injection H as <- <-. exists [], s. simpl. auto.
  - destruct a as [g lo hi|].
    + cbn [match_here] in H. apply first_some_in in H.
      destruct H as [k [Hk H]]. apply counts_in in Hk.
      destruct (take_digits k s) as [[ds rest]|] eqn:Et; [|discriminate].
      destruct (match_here p rest) as [[gs' n']|] eqn:Em; [|discriminate].
      injection H as <- <-.
      apply take_digits_some in Et. destruct Et as (-> & Hlen & Hdig).
      destruct (IH _ _ _ Em) as (m & rest' & -> & Hm & Ht).
      exists (ds ++ m), rest'. split; [now rewrite app_assoc|].
      split; [rewrite length_app; lia|].
      cbn [match_text]. exists ds, gs', m. rewrite Hlen. auto.
    + cbn [match_here] in H. destruct s as [|c s]; [discriminate|].
      destruct (is_sep c) eqn:Ec; [|discriminate].
      destruct (match_here p s) as [[gs' n']|] eqn:Em; [|discriminate].
      injection H as <- <-.
      destruct (IH _ _ _ Em) as (m & rest' & -> & Hm & Ht).
      exists (c :: m), rest'. split; [reflexivity|].
      split; [simpl; lia|].
      cbn [match_text]. exists c, m. auto.
Qed.

Lemma first_some_complete {A B : Type} (f : A -> option B) (xs : list A)
    (x : A) :
  In x xs -> f x <> None -> first_some f xs <> None.
Proof.
  induction xs as [|y xs IH]; simpl; [intros []|].
  intros [-> | Hin] Hx.
  - destruct (f x); [discriminate | congruence].
  - destruct (f y); [discriminate | now apply IH].
Qed.

Lemma take_digits_app (ds rest : str) :
  forallb is_digit ds = true ->
  take_digits (List.length ds) (ds ++ rest) = Some (ds, rest).
Proof.
  intros Hd. unfold take_digits.
  rewrite firstn_app, Nat.sub_diag, firstn_all, firstn_O, app_nil_r.
  rewrite Nat.eqb_refl, Hd. cbn [andb].
  rewrite skipn_app, Nat.sub_diag, skipn_all. reflexivity.
Qed.

(** [match_here] is complete: where the text begins with a piece written
    in the notation of the pattern, a match is reported. *)
Lemma match_here_complete (p : pattern) (gs : list (group * str))
    (m rest : str) :
  match_text p gs m -> match_here p (m ++ rest) <> None.
Proof.
  revert gs m. induction p as [|a p IH]; intros gs m H.
  - discriminate.
  - destruct a as [g lo hi|]; cbn [match_text] in H.
    + destruct H as (ds & gs' & m' & -> & -> & Hd & Hl & Ht).
      cbn [match_here].
      apply first_some_complete with (x := List.length ds).
      * unfold counts. rewrite <- in_rev, in_seq. lia.
      * rewrite <- app_assoc, (take_digits_app _ _ Hd).
        specialize (IH _ _ Ht).
        destruct (match_here p (m' ++ rest)) as [[gs0 k]|];
          [discriminate | congruence].
    + destruct H as (c & m' & -> & Hc & Ht). cbn [match_here app].
      rewrite Hc. specialize (IH _ _ Ht).
      destruct (match_here p (m' ++ rest)) as [[gs0 k]|];
        [discriminate | congruence].
Qed.

(** Skipping the positions that a match covers is resuming the scan
    where the match ends. *)
Lemma finditer_from_skipn (p : pattern) (k : nat) (s : str) :
  finditer_from p k s = finditer_from p 0 (skipn k s).
Proof.
  revert k. induction s as [|c s IH]; intros [|k]; try reflexivity.
  cbn [finditer_from skipn]. apply IH.
Qed.

(** [finditer] step by step: a match at the present position is reported
    and the scan resumes at its end; without one the scan moves on by
    one character. *)
Lemma finditer_step (p : pattern) (c : ascii) (s : str) :
  finditer p (c :: s)
  = match match_here p (c :: s) with
    | Some (gs, n) => (gs, n) :: finditer p (skipn (pred n) s)
    | None => finditer p s
    end.
Proof.
  unfold finditer. cbn [finditer_from].
  destruct (match_here p (c :: s)) as [[gs n]|]; [|reflexivity].
  now rewrite finditer_from_skipn.
Qed.

(** Every reported match was found at some position of the text. *)
Lemma finditer_from_in (p : pattern) (k : nat) (s : str) (m : re_match) :
  In m (finditer_from p k s) ->
  exists pre s', s = pre ++ s' /\ match_here p s' = Some m.
Proof.
  revert k. induction s as [|c s IH]; intros k H; [destruct H|].
  cbn [finditer_from] in H. destruct k as [|k].
  - destruct (match_here p (c :: s)) as [[gs n]|] eqn:Em.
    + destruct H as [<- | H]; [now exists [], (c :: s)|].
      destruct (IH _ H) as (pre & s' & -> & Hm).
      now exists (c :: pre), s'.
    + destruct (IH _ H) as (pre & s' & -> & Hm).
      now exists (c :: pre), s'.
  - destruct (IH _ H) as (pre & s' & -> & Hm).
    now exists (c :: pre), s'.
Qed.

Lemma finditer_in (pat : pattern) (text : str) (m : re_match) :
  In m (finditer pat text) ->
  exists pre mt post,
    text = pre ++ mt ++ post /\ List.length mt = snd m /\
    match_text pat (fst m) mt.
Proof.
  intros H. destruct (finditer_from_in _ _ _ _ H) as (pre & s' & -> & Hm).
  destruct m as [gs n].
  destruct (match_here_sound _ _ _ _ Hm) as (mt & rest & -> & Hlen & Ht).
  now exists pre, mt, rest.
Qed.

(** ** The date that a match forms *)

Lemma int_digits (s : str) :
  s <> [] -> forallb is_digit s = true -> int s = Ok (digits_value s).
Proof.
  intros Hne Hd. unfold int. destruct s; [congruence|]. now rewrite Hd.
Qed.

Lemma date_pattern_groups (pat : pattern) (gs : list (group * str))
    (mt : str) :
  In pat DATE_PATTERNS -> match_text pat gs mt ->
  exists ys ms ds,
    group_of gs G_y = Ok ys /\ group_of gs G_m = Ok ms /\
    group_of gs G_d = Ok ds /\
    digit_run ys /\ digit_run ms /\ digit_run ds.
Proof.
  assert (Hrun : forall (s : str) lo hi,
             (lo <= List.length s <= hi)%nat -> (1 <= lo)%nat -> s <> []).
  { intros s lo hi Hl Hlo ->. simpl in Hl. lia. }
  intros [<- | [<- | []]] H; cbn [match_text] in H;
    destruct H as (s1 & gs1 & m1 & -> & -> & Hd1 & Hl1 & _ & m2 & -> & _ &
                   s2 & gs2 & m3 & -> & -> & Hd2 & Hl2 & _ & m4 & -> & _ &
                   s3 & gs3 & m5 & -> & -> & Hd3 & Hl3 & -> & ->).
  - exists s3, s2, s1. unfold digit_run.
    repeat split; eauto using le_n.
  - exists s1, s2, s3. unfold digit_run.
    repeat split; eauto using le_n.
Qed.

(** The loop body on a match of one of the two patterns: never an
    exception; the date is appended when the match forms one, and the
    match is dropped otherwise. *)
Lemma scan_match_cases (pat : pattern) (text : str) (m : re_match)
    (found : list date) :
  In pat DATE_PATTERNS -> In m (finditer pat text) ->
  (exists dt, forms_date m dt /\ scan_match found m = Ok (found ++ [dt])) \/
  ((forall dt, ~ forms_date m dt) /\ scan_match found m = Ok found).
Proof.
  intros Hpat Hm.
  destruct (finditer_in _ _ _ Hm) as (pre & mt & post & _ & _ & Ht).
  destruct (date_pattern_groups _ _ _ Hpat Ht)
    as (ys & ms & ds & Hy & Hmo & Hd & [Hy1 Hy2] & [Hm1 Hm2] & [Hd1 Hd2]).
  unfold scan_match, forms_date, m_group.
  rewrite Hy, Hmo, Hd. cbn [bind].
  rewrite (int_digits ys), (int_digits ms), (int_digits ds) by assumption.
  cbn [bind].
  destruct (date_new (digits_value ys) (digits_value ms) (digits_value ds))
    as [dt | e] eqn:E.
  - left. exists dt. apply date_new_ok in E. destruct E as [-> Hv].
    split; [|reflexivity]. exists ys, ms, ds. auto.
  - right. rewrite (date_new_raise _ _ _ _ E) in *. split; [|reflexivity].
    intros dt (ys' & ms' & ds' & Hy' & Hm' & Hd' & -> & Hv).
    assert (Ok ys' = Ok ys) as Ey by congruence.
    assert (Ok ms' = Ok ms) as Em by congruence.
    assert (Ok ds' = Ok ds) as Ed by congruence.
    injection Ey as ->. injection Em as ->. injection Ed as ->.
    assert (date_new (digits_value ys) (digits_value ms) (digits_value ds)
            = Ok (mkdate (digits_value ys) (digits_value ms)
                    (digits_value ds))) by (apply date_new_ok; auto).
    congruence.
Qed.

Lemma forms_date_fun (m : re_match) (a b : date) :
  forms_date m a -> forms_date m b -> a = b.
Proof.
  intros (ys & ms & ds & Hy & Hm & Hd & -> & _)
         (ys' & ms' & ds' & Hy' & Hm' & Hd' & -> & _).
  congruence.
Qed.

(** The inner loop over the matches of one pattern: it ends normally and
    appends the dates that the matches form, in the order of the matches. *)
Lemma for_each_scan_match (pat : pattern) (text : str) (ms : list re_match)
    (found : list date) :
  (forall m, In m ms -> In m (finditer pat text)) ->
  In pat DATE_PATTERNS ->
  exists extra,
    for_each scan_match ms found = Ok (found ++ extra) /\
    forall dt, In dt extra <-> exists m, In m ms /\ forms_date m dt.
Proof.
  intros Hms Hpat. revert found Hms.
  induction ms as [|m ms IH]; intros found Hms.
  - exists []. split; [simpl; now rewrite app_nil_r|].
    intros dt. split; [intros [] | intros [m [[] _]]].
  - assert (Hm : In m (finditer pat text)) by (apply Hms; now left).
    assert (Hms' : forall m', In m' ms -> In m' (finditer pat text))
      by (intros m' H; apply Hms; now right).
    cbn [for_each].
    destruct (scan_match_cases pat text m found Hpat Hm)
      as [(dt & Hf & ->) | (Hnone & ->)]; cbn [bind].
    + destruct (IH (found ++ [dt]) Hms') as (extra & -> & Hex).
      exists (dt :: extra). split; [now rewrite <- app_assoc|].
      intros dt0. simpl. rewrite Hex. split.
      * intros [<- | (m' & Hin & Hf')].
        -- exists m. split; [now left | exact Hf].
        -- exists m'. split; [now right | exact Hf'].
      * intros (m' & [<- | Hin] & Hf').
        -- left. exact (forms_date_fun _ _ _ Hf Hf').
        -- right. now exists m'.
    + destruct (IH found Hms') as (extra & -> & Hex).
      exists extra. split; [reflexivity|].
      intros dt0. rewrite Hex. split.
      * intros (m' & Hin & Hf'). exists m'. split; [now right | exact Hf'].
      * intros (m' & [<- | Hin] & Hf').
        -- destruct (Hnone _ Hf').
        -- now exists m'.
Qed.

(** [extract_dates] ends normally on every text; what it sorts is the
    dates formed by the matches of the two patterns. *)
Lemma extract_dates_found (text : str) :
  exists found,
    extract_dates text = Ok (sorted_set found) /\
    forall dt, In dt found <->
               exists pat m, In pat DATE_PATTERNS /\
                             In m (finditer pat text) /\ forms_date m dt.
Proof.
  unfold extract_dates. unfold DATE_PATTERNS at 1. cbn [for_each].
  set (P1 := [Digits G_d 1 2; Sep; Digits G_m 1 2; Sep; Digits G_y 4 4]).
  set (P2 := [Digits G_y 4 4; Sep; Digits G_m 1 2; Sep; Digits G_d 1 2]).
  assert (H1 : In P1 DATE_PATTERNS) by (now left).
  assert (H2 : In P2 DATE_PATTERNS) by (right; now left).
  destruct (for_each_scan_match P1 text (finditer P1 text) [] (fun _ H => H) H1)
    as (e1 & -> & He1).
  cbn [bind app].
  destruct (for_each_scan_match P2 text (finditer P2 text) e1 (fun _ H => H) H2)
    as (e2 & -> & He2).
  cbn [bind]. exists (e1 ++ e2). split; [reflexivity|].
  intros dt. rewrite in_app_iff, He1, He2. split.
  - intros [(m & Hin & Hf) | (m & Hin & Hf)];
      [exists P1, m | exists P2, m]; auto.
  - intros (pat & m & [<- | [<- | []]] & Hin & Hf);
      [left | right]; now exists m.
Qed.

(** ** Where the scan stands when a date begins *)

Lemma match_text_date_chars (p : pattern) (gs : list (group * str))
    (m : str) :
  match_text p gs m -> forallb date_char m = true.
Proof.
  revert gs m. induction p as [|a p IH]; intros gs m H.
  - destruct H as [_ ->]. reflexivity.
  - destruct a as [g lo hi|]; cbn [match_text] in H.
    + destruct H as (ds & gs' & m' & _ & -> & Hd & _ & Ht).
      rewrite forallb_app, (IH _ _ Ht), andb_true_r.
      rewrite forallb_forall in *. intros c Hc. unfold date_char.
      now rewrite (Hd c Hc).
    + destruct H as (c & m' & -> & Hc & Ht). simpl.
      rewrite (IH _ _ Ht), andb_true_r. unfold date_char.
      rewrite Hc. apply orb_true_r.
Qed.

(** A match never runs over a character that is neither a digit nor a
    separator. *)
Lemma match_here_stops (p : pattern) (pre rest : str) (c : ascii)
    (gs : list (group * str)) (n : nat) :
  date_char c = false ->
  match_here p (pre ++ c :: rest) = Some (gs, n) ->
  (n <= List.length pre)%nat.
Proof.
  intros Hc H.
  destruct (match_here_sound _ _ _ _ H) as (m & rest' & E & <- & Ht).
  apply match_text_date_chars in Ht.
  apply app_eq_app in E. destruct E as [l [[-> _] | [-> E]]].
  - rewrite length_app. lia.
  - destruct l as [|c' l]; [rewrite app_nil_r; lia|].
    simpl in E. injection E as <- _.
    rewrite forallb_app in Ht. simpl in Ht. rewrite Hc in Ht.
    rewrite andb_false_r in Ht. discriminate.
Qed.

(** After such a character the scan starts afresh. *)
Lemma finditer_from_resume (p : pattern) (pre rest : str) (c : ascii)
    (k : nat) :
  date_char c = false -> (k <= List.length pre)%nat ->
  exists l,
    finditer_from p k (pre ++ c :: rest) = l ++ finditer_from p 0 rest.
Proof.
  intros Hc. revert k. induction pre as [|x pre IH]; intros k Hk.
  - simpl in Hk. assert (k = 0)%nat as -> by lia.
    cbn [app finditer_from].
    destruct (match_here p (c :: rest)) as [[gs n]|] eqn:E.
    + pose proof (match_here_stops p [] rest c gs n Hc E) as Hn.
      simpl in Hn. assert (n = 0)%nat as -> by lia.
      now exists [(gs, 0%nat)].
    + now exists [].
  - cbn [app finditer_from]. destruct k as [|k].
    + destruct (match_here p (x :: pre ++ c :: rest)) as [[gs n]|] eqn:E.
      * pose proof (match_here_stops p (x :: pre) rest c gs n Hc E) as Hn.
        simpl in Hn. destruct (IH (pred n)) as [l ->]; [lia|].
        now exists ((gs, n) :: l).
      * destruct (IH 0%nat) as [l ->]; [lia|]. now exists l.
    + simpl in Hk. destruct (IH k) as [l ->]; [lia|]. now exists l.
Qed.

Lemma finditer_at_boundary (p : pattern) (pre s : str) (m : re_match) :
  boundary pre -> s <> [] -> match_here p s = Some m ->
  In m (finditer p (pre ++ s)).
Proof.
  intros Hb Hs Hm. unfold finditer.
  assert (H0 : In m (finditer_from p 0 s)).
  { destruct s as [|c s]; [congruence|]. cbn [finditer_from].
    rewrite Hm. destruct m. now left. }
  destruct Hb as [-> | (pre' & c & -> & Hc)]; [exact H0|].
  rewrite <- app_assoc. cbn [app].
  destruct (finditer_from_resume p pre' s c 0 Hc) as [l ->]; [lia|].
  apply in_or_app. now right.
Qed.

(** ** Date extractor *)

Lemma d_2024_03_05_valid : valid_date d_2024_03_05.
Proof. vm_compute. intuition discriminate. Qed.

Lemma dmy_text_match (post : str) :
  match_here dmy_pattern (dmy_text ++ post)
  = Some ([(G_d, lit "05"); (G_m, lit "03"); (G_y, lit "2024")], 10%nat).
Proof. reflexivity. Qed.

Lemma ymd_text_match (post : str) :
  match_here ymd_pattern (ymd_text ++ post)
  = Some ([(G_y, lit "2024"); (G_m, lit "03"); (G_d, lit "05")], 10%nat).
Proof. reflexivity. Qed.

Lemma extract_dates_member (text : str) (pat : pattern) (m : re_match)
    (dt : date) :
  In pat DATE_PATTERNS -> In m (finditer pat text) -> forms_date m dt ->
  exists l, extract_dates text = Ok l /\ In dt l.
Proof.
  intros Hp Hm Hf. destruct (extract_dates_found text) as (found & -> & Hin).
  exists (sorted_set found). split; [reflexivity|].
  apply sorted_set_in, Hin. now exists pat, m.
Qed.

(** A match of one of the two patterns takes at least 8 characters of
    the text it is found in. *)
Lemma date_match_length (pat : pattern) (s : str) (gs : list (group * str))
    (n : nat) :
  In pat DATE_PATTERNS -> match_here pat s = Some (gs, n) ->
  (8 <= n <= List.length s)%nat.
Proof.
  intros Hp Hm.
  destruct (match_here_sound _ _ _ _ Hm) as (m & rest & -> & <- & Ht).
  rewrite length_app. split; [|lia].
  destruct Hp as [<- | [<- | []]]; cbn [match_text] in Ht.
  - destruct Ht as (ds & gs1 & m1 & _ & -> & _ & Hd & c1 & m2 & -> & _
                    & ms & gs2 & m3 & _ & -> & _ & Hmo & c2 & m4 & -> & _
                    & ys & gs3 & m5 & _ & -> & _ & Hy & _).
    rewrite !length_app. cbn [List.length]. rewrite !length_app.
    cbn [List.length]. rewrite !length_app. lia.
  - destruct Ht as (ys & gs1 & m1 & _ & -> & _ & Hy & c1 & m2 & -> & _
                    & ms & gs2 & m3 & _ & -> & _ & Hmo & c2 & m4 & -> & _
                    & ds & gs3 & m5 & _ & -> & _ & Hd & _).
    rewrite !length_app. cbn [List.length]. rewrite !length_app.
    cbn [List.length]. rewrite !length_app. lia.
Qed.

(** The scan of one of the two patterns, as a recursion on the text: a
    match at the present position is reported and the scan goes on after
    the last character of the match; where there is none, the scan goes
    on at the next character. *)
Lemma finditer_scan (pat : pattern) (text : str) :
  In pat DATE_PATTERNS ->
  finditer pat text
  = match match_here pat text with
    | Some (gs, n) => (gs, n) :: finditer pat (skipn n text)
    | None =>
        match text with
        | [] => []
        | _ :: rest => finditer pat rest
        end
    end.
Proof.
  intros Hp. destruct text as [|c s].
  - destruct Hp as [<- | [<- | []]]; reflexivity.
  - rewrite finditer_step.
    destruct (match_here pat (c :: s)) as [[gs n]|] eqn:Em; [|reflexivity].
    destruct (date_match_length _ _ _ _ Hp Em) as [Hn _].
    destruct n as [|n]; [lia | reflexivity].
Qed.

(** The reported matches of one scan lie side by side in the text: their
    lengths add up to no more than the length of the text. *)
Lemma finditer_fits (pat : pattern) (text : str) :
  In pat DATE_PATTERNS ->
  (list_sum (map snd (finditer pat text)) <= List.length text)%nat.
Proof.
  intros Hp.
  assert (H : forall k text, (List.length text <= k)%nat ->
      (list_sum (map snd (finditer pat text)) <= List.length text)%nat).
  { clear text. induction k as [|k IH]; intros text Hk.
    - destruct text; [|simpl in Hk; lia].
      rewrite (finditer_scan _ _ Hp).
      destruct (match_here pat []) as [[gs n]|] eqn:Em; [|simpl; lia].
      destruct (date_match_length _ _ _ _ Hp Em). simpl in *. lia.
    - rewrite (finditer_scan _ _ Hp).
      destruct (match_here pat text) as [[gs n]|] eqn:Em.
      + destruct (date_match_length _ _ _ _ Hp Em) as [Hn Hl].
        cbn [map list_sum fold_right snd].
        assert (Hs : (List.length (skipn n text) <= k)%nat)
          by (rewrite length_skipn; lia).
        specialize (IH _ Hs). rewrite length_skipn in IH.
        unfold list_sum in IH. lia.
      + destruct text as [|c rest]; [simpl; lia|].
        cbn [List.length] in *.
        assert (Hs : (List.length rest <= k)%nat) by lia.
        specialize (IH _ Hs). lia. }
  now apply (H (List.length text)).
Qed.

(** C2, the claim as stated fails: the text "1/1/2005/03/2024" contains
    "05/03/2024", but the scan of the first pattern has consumed "1/1/2005"
    when it reaches it, and that of the second "2005/03/20"; the date
    2024-03-05 is not returned. *)
Lemma extract_dates_overlapped_occurrence :
  lit "1/1/2005/03/2024" = lit "1/1/20" ++ dmy_text /\
  extract_dates (lit "1/1/2005/03/2024")
  = Ok [mkdate 2005 1 1; mkdate 2005 3 20] /\
  ~ In d_2024_03_05 [mkdate 2005 1 1; mkdate 2005 3 20].
Proof.
  split; [reflexivity|]. split; [vm_compute; reflexivity|].
  simpl. intuition discriminate.
Qed.

(** C2, amended.  On every text [extract_dates] returns, without
    duplicates and in strictly ascending order, exactly the valid calendar
    dates formed by the matches that the left-to-right scan of each of the
    two patterns reports; every such match is a piece of the text written
    as 1-2 digits, separator, 1-2 digits, separator, 4 digits, or as 4
    digits, separator, 1-2 digits, separator, 1-2 digits.  Where
    "05/03/2024" stands at the start of the text or after a character
    that is neither a digit nor a separator, the first pattern reports it
    and 2024-03-05 is returned; likewise "2024-03-05" through the second
    pattern.  The scan of a pattern does not overlap its matches: where
    the pattern matches at the present position the match is reported and
    the scan goes on after the last character of the match, so that an
    occurrence beginning inside a reported match is not reported, and
    elsewhere the scan goes on at the next character; the reported
    matches of one scan therefore lie side by side in the text, their
    lengths adding up to no more than its length.  In "1/1/2005/03/2024"
    the first scan reports "1/1/2005" and then nothing in "/03/2024", the
    second reports "2005/03/20", and 2024-03-05 is not returned. *)
Theorem extract_dates_spec :
  (forall text : str,
      exists l,
        extract_dates text = Ok l /\
        StronglySorted date_lt l /\ NoDup l /\
        forall dt, In dt l <->
                   exists pat m, In pat DATE_PATTERNS /\
                                 In m (finditer pat text) /\
                                 forms_date m dt) /\
  (forall (text : str) (pat : pattern) (m : re_match),
      In pat DATE_PATTERNS -> In m (finditer pat text) ->
      exists pre mt post,
        text = pre ++ mt ++ post /\ List.length mt = snd m /\
        match_text pat (fst m) mt) /\
  (forall pre post : str,
      boundary pre ->
      exists m l,
        In m (finditer dmy_pattern (pre ++ dmy_text ++ post)) /\
        forms_date m d_2024_03_05 /\
        extract_dates (pre ++ dmy_text ++ post) = Ok l /\
        In d_2024_03_05 l) /\
  (forall pre post : str,
      boundary pre ->
      exists m l,
        In m (finditer ymd_pattern (pre ++ ymd_text ++ post)) /\
        forms_date m d_2024_03_05 /\
        extract_dates (pre ++ ymd_text ++ post) = Ok l /\
        In d_2024_03_05 l) /\
  extract_dates dmy_text = Ok [d_2024_03_05] /\
  extract_dates ymd_text = Ok [d_2024_03_05] /\
  extract_dates (lit "07/03/2024, 2024-03-05 e 05/03/2024")
  = Ok [d_2024_03_05; mkdate 2024 3 7] /\
  (forall (pat : pattern) (text : str),
      In pat DATE_PATTERNS ->
      finditer pat text
      = match match_here pat text with
        | Some (gs, n) => (gs, n) :: finditer pat (skipn n text)
        | None =>
            match text with
            | [] => []
            | _ :: rest => finditer pat rest
            end
        end) /\
  (forall (pat : pattern) (text : str) (gs : list (group * str)) (n : nat),
      In pat DATE_PATTERNS -> match_here pat text = Some (gs, n) ->
      (8 <= n <= List.length text)%nat /\
      exists mt rest,
        text = mt ++ rest /\ List.length mt = n /\
        finditer pat (mt ++ rest) = (gs, n) :: finditer pat rest) /\
  (forall (pat : pattern) (text : str),
      In pat DATE_PATTERNS ->
      (list_sum (map snd (finditer pat text)) <= List.length text)%nat) /\
  finditer dmy_pattern (lit "1/1/2005/03/2024")
  = [([(G_d, lit "1"); (G_m, lit "1"); (G_y, lit "2005")], 8%nat)] /\
  match_here dmy_pattern dmy_text
  = Some ([(G_d, lit "05"); (G_m, lit "03"); (G_y, lit "2024")], 10%nat) /\
  finditer ymd_pattern (lit "1/1/2005/03/2024")
  = [([(G_y, lit "2005"); (G_m, lit "03"); (G_d, lit "20")], 10%nat)] /\
  extract_dates (lit "1/1/20" ++ dmy_text)
  = Ok [mkdate 2005 1 1; mkdate 2005 3 20].
Proof.
  split; [|split; [|split; [|split; [|split; [|split; [|split;
    [|split; [|split; [|split; [|split; [|split; [|split]]]]]]]]]]]].
  - intros text. destruct (extract_dates_found text) as (found & -> & Hin).
    exists (sorted_set found). split; [reflexivity|].
    split; [apply sorted_set_sorted|].
    split; [apply strictly_sorted_NoDup, sorted_set_sorted|].
    intros dt. rewrite sorted_set_in. apply Hin.
  - intros text pat m _ Hm. now apply finditer_in.
  - intros pre post Hb.
    set (m := ([(G_d, lit "05"); (G_m, lit "03"); (G_y, lit "2024")],
               10%nat) : re_match).
    assert (Hm : In m (finditer dmy_pattern (pre ++ dmy_text ++ post))).
    { apply finditer_at_boundary; [exact Hb | discriminate |].
      apply dmy_text_match. }
    assert (Hf : forms_date m d_2024_03_05).
    { exists (lit "2024"), (lit "03"), (lit "05").
      repeat split; try reflexivity; apply d_2024_03_05_valid. }
    destruct (extract_dates_member _ dmy_pattern m _ (or_introl eq_refl) Hm Hf)
      as (l & Hl & Hin).
    now exists m, l.
  - intros pre post Hb.
    set (m := ([(G_y, lit "2024"); (G_m, lit "03"); (G_d, lit "05")],
               10%nat) : re_match).
    assert (Hm : In m (finditer ymd_pattern (pre ++ ymd_text ++ post))).
    { apply finditer_at_boundary; [exact Hb | discriminate |].
      apply ymd_text_match. }
    assert (Hf : forms_date m d_2024_03_05).
    { exists (lit "2024"), (lit "03"), (lit "05").
      repeat split; try reflexivity; apply d_2024_03_05_valid. }
    destruct (extract_dates_member _ ymd_pattern m _
                (or_intror (or_introl eq_refl)) Hm Hf) as (l & Hl & Hin).
    now exists m, l.
  - vm_compute. reflexivity.
  - vm_compute. reflexivity.
  - vm_compute. reflexivity.
  - intros pat text Hp. now apply finditer_scan.
  - intros pat text gs n Hp Hm.
    split; [exact (date_match_length _ _ _ _ Hp Hm)|].
    destruct (match_here_sound _ _ _ _ Hm) as (mt & rest & -> & Hl & _).
    exists mt, rest. split; [reflexivity|]. split; [exact Hl|].
    rewrite (finditer_scan _ _ Hp), Hm. subst n.
    now rewrite skipn_app, skipn_all, Nat.sub_diag.
  - intros pat text Hp. now apply finditer_fits.
  - vm_compute. reflexivity.
  - vm_compute. reflexivity.
  - vm_compute. reflexivity.
  - vm_compute. reflexivity.
Qed.

Lemma extract_dates_spec_witness :
  exists m l,
    In m (finditer dmy_pattern
            (lit "Sciopero del " ++ dmy_text ++ lit " a Milano")) /\
    forms_date m d_2024_03_05 /\
    extract_dates (lit "Sciopero del " ++ dmy_text ++ lit " a Milano")
    = Ok l /\
    In d_2024_03_05 l.
Proof.
  apply (proj1 (proj2 (proj2 extract_dates_spec))).
  right. exists (lit "Sciopero del"), " "%char. split; reflexivity.
Defined.

(** C6.  [extract_dates] raises on no text and returns only dates of the
    calendar; a match whose groups form no calendar date leaves the list
    of found dates as it is and raises nothing.  "31/02/2024" is matched
    by the first pattern, [date(2024, 2, 31)] raises [ValueError], and
    the result is empty. *)
Theorem extract_dates_never_raises :
  (forall text : str,
      exists l, extract_dates text = Ok l /\ Forall valid_date l) /\
  (forall (text : str) (pat : pattern) (m : re_match) (found : list date),
      In pat DATE_PATTERNS -> In m (finditer pat text) ->
      (forall dt, ~ forms_date m dt) ->
      scan_match found m = Ok found) /\
  finditer dmy_pattern invalid_text
  = [([(G_d, lit "31"); (G_m, lit "02"); (G_y, lit "2024")], 10%nat)] /\
  finditer ymd_pattern invalid_text = [] /\
  date_new 2024 2 31 = Raise ValueError /\
  extract_dates invalid_text = Ok [] /\
  extract_dates (lit "31/02/2024, 01/03/2024") = Ok [mkdate 2024 3 1].
Proof.
  split; [|split].
  - intros text. destruct (extract_dates_found text) as (found & -> & Hin).
    exists (sorted_set found). split; [reflexivity|].
    apply Forall_forall. intros dt Hdt.
    apply sorted_set_in, Hin in Hdt.
    destruct Hdt as (pat & m & _ & _ & ys & ms & ds & _ & _ & _ & _ & Hv).
    exact Hv.
  - intros text pat m found Hp Hm Hnone.
    destruct (scan_match_cases pat text m found Hp Hm)
      as [(dt & Hf & _) | (_ & H)]; [destruct (Hnone dt Hf) | exact H].
  - repeat split; vm_compute; reflexivity.
Qed.

Lemma extract_dates_never_raises_witness :
  scan_match [mkdate 2024 1 1]
    ([(G_d, lit "31"); (G_m, lit "02"); (G_y, lit "2024")], 10%nat)
  = Ok [mkdate 2024 1 1].
Proof.
  apply (proj1 (proj2 extract_dates_never_raises)) with
    (text := invalid_text) (pat := dmy_pattern).
  - now left.
  - now left.
  - intros dt (ys & ms & ds & Hy & Hm & Hd & -> & Hv).
    injection Hy as <-. injection Hm as <-. injection Hd as <-.
    vm_compute in Hv. intuition congruence.
Defined.

(** ** Classifier *)

Lemma any_in_spec (xs : list str) (t : str) :
  any_in xs t = true <-> exists k, In k xs /\ substring k t.
Proof.
  unfold any_in. rewrite existsb_exists.
  split; intros (k & Hin & Hk); exists k; split; auto;
    now apply contains_spec.
Qed.

(** The fixed terms of [detect_mode] are the default national-mode
    keywords in lower case. *)
Lemma mode_terms_default (k : str) :
  In k (LOCAL_TRANSIT_TERMS ++ RAIL_TERMS ++ AIR_TERMS ++ ROAD_TERMS) <->
  In k (map lower DEFAULT_NATIONAL_MODE_KEYWORDS).
Proof. vm_compute. tauto. Qed.

Lemma detect_mode_generic (text : str) :
  detect_mode text = Generic <->
  any_in (LOCAL_TRANSIT_TERMS ++ RAIL_TERMS ++ AIR_TERMS ++ ROAD_TERMS)
    (lower text) = false.
Proof.
  unfold detect_mode, any_in. rewrite !existsb_app.
  destruct (existsb _ LOCAL_TRANSIT_TERMS); [split; discriminate|].
  destruct (existsb _ RAIL_TERMS); [split; discriminate|].
  destruct (existsb _ AIR_TERMS); [split; discriminate|].
  destruct (existsb _ ROAD_TERMS); [split; discriminate|].
  split; reflexivity.
Qed.

(** ** Pipeline orchestrator *)

Lemma for_each_app {A S : Type} (body : S -> A -> result S)
    (xs ys : list A) (s : S) :
  for_each body (xs ++ ys) s
  = (s' <- for_each body xs s ;; for_each body ys s').
Proof.
  revert s. induction xs as [|x xs IH]; intros s; simpl; [reflexivity|].
  destruct (body s x) as [s'|e]; simpl; [apply IH | reflexivity].
Qed.

(** An entry on which the loop body says [continue] leaves no trace in
    the run. *)
Lemma main_loop_skip (cfg : config) (e : entry) (before after : list entry) :
  process_entry cfg e = Ok None ->
  main_loop cfg (before ++ e :: after) = main_loop cfg (before ++ after).
Proof.
  intros H. unfold main_loop. rewrite !for_each_app.
  destruct (for_each _ before []) as [kept|err]; [|reflexivity].
  cbn [bind for_each]. rewrite H. reflexivity.
Qed.

(** What the loop body does once an entry is included and its dates are
    known. *)
Lemma process_entry_included (cfg : config) (e : entry) (dates : list date) :
  should_include (entry_blob e) (geo_kw cfg) (include_national cfg)
    (nat_mode_kw cfg) = true ->
  extract_dates (entry_blob e) = Ok dates ->
  process_entry cfg e
  = (dates' <- match dates with
               | [] =>
                   match entry_timestamp e with
                   | Some pp =>
                       d <- date_new (tm_year pp) (tm_mon pp) (tm_mday pp) ;;
                       Ok [d]
                   | None => Ok dates
                   end
               | _ :: _ => Ok dates
               end ;;
     span <- choose_event_span dates' ;;
     match span with
     | None => Ok None
     | Some (dtstart, dtend) =>
         Ok (Some (mkevent (make_uid (entry_link e) (entry_title e))
                     dtstart dtend (detect_mode (entry_blob e))
                     (detect_scope (entry_blob e))
                     match entry_link e with
                     | [] => None
                     | _ => Some (entry_link e)
                     end))
     end).
Proof.
  intros Hi Hd. unfold process_entry. rewrite Hi, Hd. reflexivity.
Qed.

(** C7, the claim as stated fails: an included entry without a date in
    its text and published on 9999-12-31 gets no span; the addition of
    one day raises [OverflowError], which ends the run. *)
Lemma fallback_timestamp_overflow :
  let e := undated_entry (Some (mktime 9999 12 31)) None in
  should_include (entry_blob e) DEFAULT_GEO_KEYWORDS true
    DEFAULT_NATIONAL_MODE_KEYWORDS = true /\
  extract_dates (entry_blob e) = Ok [] /\
  process_entry default_config e = Raise OverflowError /\
  main_loop default_config [e] = Raise OverflowError.
Proof. repeat split; vm_compute; reflexivity. Qed.

(** C7, amended.  For an included entry whose blob yields no date: the
    fallback timestamp is the published one, or else the updated one;
    when it is a calendar date [d] before 9999-12-31, the entry
    produces an event with the one-day span from [d] to the next day;
    when there is no timestamp, the entry is skipped: the loop body
    raises nothing and the output of the run is that of the feed without
    this entry. *)
Theorem fallback_to_entry_timestamp (cfg : config) (e : entry) :
  should_include (entry_blob e) (geo_kw cfg) (include_national cfg)
    (nat_mode_kw cfg) = true ->
  extract_dates (entry_blob e) = Ok [] ->
  (forall t, published_parsed e = Some t -> entry_timestamp e = Some t) /\
  (published_parsed e = None -> entry_timestamp e = updated_parsed e) /\
  (forall pp d,
      entry_timestamp e = Some pp ->
      date_new (tm_year pp) (tm_mon pp) (tm_mday pp) = Ok d ->
      d <> date_max ->
      exists ev d',
        process_entry cfg e = Ok (Some ev) /\
        date_add_day d = Ok d' /\
        ev_dtstart ev = d /\ ev_dtend ev = d' /\
        date_lt d d' /\
        forall before kept,
          main_loop cfg before = Ok kept ->
          main_loop cfg (before ++ [e]) = Ok (kept ++ [ev])) /\
  (entry_timestamp e = None ->
   process_entry cfg e = Ok None /\
   forall before after,
     main_loop cfg (before ++ e :: after) = main_loop cfg (before ++ after)).
Proof.
  intros Hi Hd.
  pose proof (process_entry_included cfg e [] Hi Hd) as Hp.
  split; [|split; [|split]].
  - intros t Ht. unfold entry_timestamp. now rewrite Ht.
  - intros Hn. unfold entry_timestamp. now rewrite Hn.
  - intros pp d Hpp Hnew Hmax.
    apply date_new_ok in Hnew as Hv. destruct Hv as [_ Hv].
    assert (Hvd : valid_date d).
    { apply date_new_ok in Hnew. destruct Hnew as [-> _]. exact Hv. }
    destruct (date_add_day_total d Hvd Hmax) as [d' Hd'].
    rewrite Hpp, Hnew in Hp. cbn [bind] in Hp.
    unfold choose_event_span, max_date, min_date in Hp.
    cbn [fold_left] in Hp. rewrite Hd' in Hp. cbn [bind] in Hp.
    eexists. exists d'. split; [exact Hp|].
    split; [exact Hd'|]. split; [reflexivity|]. split; [reflexivity|].
    split; [now apply date_add_day_lt|].
    intros before kept Hb. unfold main_loop in *.
    rewrite for_each_app, Hb. cbn [bind for_each]. rewrite Hp. reflexivity.
  - intros Hn. rewrite Hn in Hp. cbn [bind choose_event_span] in Hp.
    split; [exact Hp|]. intros before after. now apply main_loop_skip.
Qed.

Lemma fallback_to_entry_timestamp_witness :
  let e := undated_entry None (Some (mktime 2024 3 5)) in
  exists ev d',
    process_entry default_config e = Ok (Some ev) /\
    date_add_day d_2024_03_05 = Ok d' /\
    ev_dtstart ev = d_2024_03_05 /\ ev_dtend ev = d' /\
    date_lt d_2024_03_05 d' /\
    forall before kept,
      main_loop default_config before = Ok kept ->
      main_loop default_config (before ++ [e]) = Ok (kept ++ [ev]).
Proof.
  intros e.
  apply (proj1 (proj2 (proj2
           (fallback_to_entry_timestamp default_config e eq_refl eq_refl))))
    with (pp := mktime 2024 3 5).
  - reflexivity.
  - reflexivity.
  - discriminate.
Defined.

(** ** The mode classifier and the configuration *)

(** C4, the claim as stated fails: with the national-mode keywords
    overridden by the single keyword "NAVE", a blob that matches the
    configured keyword is classified Generic, and a blob that matches no
    configured keyword is classified Rail through the fixed term "treni";
    the events of the run carry these modes. *)
Lemma detect_mode_ignores_override :
  matches_any (lit "Sciopero nave Milano 05/03/2024")
    (nat_mode_kw nave_config) = true /\
  detect_mode (lit "Sciopero nave Milano 05/03/2024") = Generic /\
  matches_any (lit "Sciopero treni Milano 05/03/2024")
    (nat_mode_kw nave_config) = false /\
  detect_mode (lit "Sciopero treni Milano 05/03/2024") = Rail /\
  nat_mode_kw nave_config = [lit "NAVE"] /\
  (r <- main nave_environ
          [dated_entry "Sciopero nave Milano 05/03/2024";
           dated_entry "Sciopero treni Milano 05/03/2024"] ;;
   Ok (map ev_mode r)) = Ok [Generic; Rail].
Proof. repeat split; vm_compute; reflexivity. Qed.

(** C4, amended.  [detect_mode] tests fixed lists of terms, the first
    category with a matching term wins and the mode is Generic when none
    matches; the fixed terms are the default national-mode keywords in
    lower case, so with the default list a blob has a mode other than
    Generic exactly when it matches a national-mode keyword; overriding
    the national-mode keywords changes no mode: the mode of an event is
    [detect_mode] of its blob under every configuration. *)
Theorem detect_mode_fixed_terms :
  (forall text : str,
      let t := lower text in
      (detect_mode text = LocalTransit <->
       exists k, In k LOCAL_TRANSIT_TERMS /\ substring k t) /\
      (detect_mode text = Rail <->
       any_in LOCAL_TRANSIT_TERMS t = false /\
       exists k, In k RAIL_TERMS /\ substring k t) /\
      (detect_mode text = Air <->
       any_in LOCAL_TRANSIT_TERMS t = false /\ any_in RAIL_TERMS t = false /\
       exists k, In k AIR_TERMS /\ substring k t) /\
      (detect_mode text = Road <->
       any_in LOCAL_TRANSIT_TERMS t = false /\ any_in RAIL_TERMS t = false /\
       any_in AIR_TERMS t = false /\
       exists k, In k ROAD_TERMS /\ substring k t) /\
      (detect_mode text = Generic <->
       forall k, In k (LOCAL_TRANSIT_TERMS ++ RAIL_TERMS ++ AIR_TERMS
                         ++ ROAD_TERMS) -> ~ substring k t)) /\
  (forall text : str,
      detect_mode text <> Generic <->
      matches_any text DEFAULT_NATIONAL_MODE_KEYWORDS = true) /\
  (forall (cfg : config) (e : entry) (ev : event),
      process_entry cfg e = Ok (Some ev) ->
      ev_mode ev = detect_mode (entry_blob e)) /\
  (forall (cfg : config) (kws : list str) (e : entry) (ev ev' : event),
      process_entry cfg e = Ok (Some ev) ->
      process_entry (with_nat_mode_kw cfg kws) e = Ok (Some ev') ->
      ev_mode ev' = ev_mode ev) /\
  (forall (env : environ) (value : option str) (e : entry)
          (ev ev' : event),
      process_entry (main_config env) e = Ok (Some ev) ->
      process_entry (main_config (with_NATIONAL_MODES env value)) e
      = Ok (Some ev') ->
      ev_mode ev' = ev_mode ev).
Proof.
  assert (Hmode : forall cfg e ev,
             process_entry cfg e = Ok (Some ev) ->
             ev_mode ev = detect_mode (entry_blob e)).
  { intros cfg e ev H. unfold process_entry in H.
    destruct (negb _); [discriminate|].
    destruct (extract_dates (entry_blob e)) as [dates|]; [|discriminate].
    cbn [bind] in H.
    destruct (match dates with [] => _ | _ :: _ => _ end) as [dates'|];
      [|discriminate].
    cbn [bind] in H.
    destruct (choose_event_span dates') as [[[s x]|]|]; try discriminate.
    cbn [bind] in H. injection H as <-. reflexivity. }
  split; [|split; [|split; [|split]]].
  - intros text t.
    assert (HG : detect_mode text = Generic <->
                 forall k, In k (LOCAL_TRANSIT_TERMS ++ RAIL_TERMS
                                   ++ AIR_TERMS ++ ROAD_TERMS) ->
                           ~ substring k t).
    { rewrite detect_mode_generic. fold t.
      rewrite <- not_true_iff_false, any_in_spec. split.
      - intros H k Hin Hk. apply H. now exists k.
      - intros H (k & Hin & Hk). exact (H k Hin Hk). }
    split; [|split; [|split; [|split; [|exact HG]]]]; clear HG;
      unfold detect_mode; fold t; rewrite <- !any_in_spec;
      destruct (any_in LOCAL_TRANSIT_TERMS t), (any_in RAIL_TERMS t),
        (any_in AIR_TERMS t), (any_in ROAD_TERMS t);
      split; intros H; try discriminate H; try reflexivity;
      try (repeat split; reflexivity);
      try (destruct H as (H1 & H2); try discriminate H1;
           try discriminate H2;
           destruct H2 as (H2 & H3); try discriminate H2;
           try discriminate H3;
           destruct H3 as (H3 & H4); try discriminate H3;
           discriminate H4).
  - intros text. rewrite detect_mode_generic, not_false_iff_true.
    rewrite any_in_spec, matches_any_spec. split.
    + intros (k & Hin & Hk). apply mode_terms_default in Hin.
      apply in_map_iff in Hin. destruct Hin as (k0 & <- & Hin0).
      now exists k0.
    + intros (k0 & Hin0 & Hk). exists (lower k0). split; [|exact Hk].
      apply mode_terms_default. now apply in_map.
  - exact Hmode.
  - intros cfg kws e ev ev' H H'.
    now rewrite (Hmode _ _ _ H), (Hmode _ _ _ H').
  - intros env value e ev ev' H H'.
    now rewrite (Hmode _ _ _ H), (Hmode _ _ _ H').
Qed.

Lemma detect_mode_fixed_terms_witness :
  ev_mode
    (mkevent
       (make_uid [] (lit "Sciopero treni Milano 05/03/2024"))
       d_2024_03_05 (mkdate 2024 3 6) Rail Unspecified None)
  = detect_mode
      (entry_blob (dated_entry "Sciopero treni Milano 05/03/2024")).
Proof.
  apply (proj1 (proj2 (proj2 detect_mode_fixed_terms))) with
    (cfg := nave_config).
  vm_compute. reflexivity.
Defined.

(** * Further properties *)

(** ** Reading the environment *)

Lemma forallb_rev {A : Type} (f : A -> bool) (l : list A) :
  forallb f (rev l) = forallb f l.
Proof.
  destruct (forallb f l) eqn:E.
  - rewrite forallb_forall in *. intros x Hx. apply E. now apply in_rev.
  - destruct (forallb f (rev l)) eqn:E'; [|reflexivity].
    rewrite <- E. symmetry. rewrite forallb_forall in *.
    intros x Hx. apply E'. now apply in_rev in Hx.
Qed.

Lemma lstrip_blank (s : str) : blank s -> lstrip s = [].
Proof.
  unfold blank. induction s as [|c s IH]; simpl; [reflexivity|].
  intros H. apply andb_true_iff in H. destruct H as [Hc Hs].
  rewrite Hc. now apply IH.
Qed.

Lemma lstrip_nil (s : str) : lstrip s = [] -> blank s.
Proof.
  unfold blank. induction s as [|c s IH]; simpl; [reflexivity|].
  destruct (is_space c); [exact IH | discriminate].
Qed.

Lemma lstrip_app_blank (ws s : str) : blank ws -> lstrip (ws ++ s) = lstrip s.
Proof.
  unfold blank. induction ws as [|c ws IH]; simpl; [reflexivity|].
  intros H. apply andb_true_iff in H. destruct H as [Hc Hs].
  rewrite Hc. now apply IH.
Qed.

Lemma lstrip_app (s t : str) : lstrip s <> [] -> lstrip (s ++ t) = lstrip s ++ t.
Proof.
  induction s as [|c s IH]; simpl; [congruence|].
  destruct (is_space c); [exact IH | reflexivity].
Qed.

Lemma lstrip_split (s : str) : exists ws, s = ws ++ lstrip s /\ blank ws.
Proof.
  unfold blank. induction s as [|c s IH]; simpl; [now exists []|].
  destruct (is_space c) eqn:E.
  - destruct IH as (ws & Hs & Hws). exists (c :: ws). simpl.
    rewrite E, Hws. split; [now rewrite <- Hs | reflexivity].
  - now exists [].
Qed.

Lemma lstrip_head (s s' : str) (c : ascii) :
  lstrip s = c :: s' -> is_space c = false.
Proof.
  induction s as [|x s IH]; simpl; [discriminate|].
  destruct (is_space x) eqn:E; [exact IH|]. intros H. now injection H as <- _.
Qed.

Lemma blank_rev (s : str) : blank s -> blank (rev s).
Proof. unfold blank. now rewrite forallb_rev. Qed.

Lemma blank_app (s t : str) : blank s -> blank t -> blank (s ++ t).
Proof. unfold blank. rewrite forallb_app. now intros -> ->. Qed.

(** [strip] removes white space at both ends and nothing else. *)
Lemma strip_split (s : str) :
  exists ws1 ws2, s = ws1 ++ strip s ++ ws2 /\ blank ws1 /\ blank ws2.
Proof.
  destruct (lstrip_split s) as (ws1 & Hs & H1).
  destruct (lstrip_split (rev (lstrip s))) as (ws2 & Hr & H2).
  exists ws1, (rev ws2). split; [|split; [exact H1 | now apply blank_rev]].
  unfold strip. rewrite <- rev_app_distr, <- Hr, rev_involutive. exact Hs.
Qed.

Lemma strip_pad (ws1 s ws2 : str) :
  blank ws1 -> blank ws2 -> strip (ws1 ++ s ++ ws2) = strip s.
Proof.
  intros H1 H2. unfold strip. rewrite (lstrip_app_blank _ _ H1).
  destruct (lstrip s) as [|c u] eqn:E.
  - apply lstrip_nil in E. rewrite (lstrip_blank (s ++ ws2)); [reflexivity|].
    now apply blank_app.
  - rewrite lstrip_app by (rewrite E; discriminate). rewrite E.
    rewrite rev_app_distr, lstrip_app_blank by (now apply blank_rev).
    reflexivity.
Qed.

Lemma strip_idem (s : str) : strip (strip s) = strip s.
Proof.
  destruct (strip_split s) as (ws1 & ws2 & Hs & H1 & H2).
  rewrite Hs at 2. now rewrite strip_pad.
Qed.

Lemma strip_blank (s : str) : strip s = [] <-> blank s.
Proof.
  split.
  - intros H. destruct (strip_split s) as (ws1 & ws2 & Hs & H1 & H2).
    rewrite H in Hs. rewrite Hs. now apply blank_app.
  - intros H. unfold strip. now rewrite (lstrip_blank s H).
Qed.

Lemma strip_in (s : str) (c : ascii) : In c (strip s) -> In c s.
Proof.
  intros H. destruct (strip_split s) as (ws1 & ws2 & Hs & _).
  rewrite Hs. apply in_or_app. right. apply in_or_app. now left.
Qed.

(** A stripped string that is not empty begins and ends with a character
    that is not white space. *)
Lemma strip_ends (s : str) (c : ascii) (u : str) :
  strip s = c :: u ->
  is_space c = false /\ is_space (last (c :: u) c) = false.
Proof.
  unfold strip. intros H. split.
  - destruct (lstrip_split (rev (lstrip s))) as (ws & Hr & _).
    apply (f_equal (@rev ascii)) in Hr.
    rewrite rev_involutive, rev_app_distr, H in Hr. simpl in Hr.
    exact (lstrip_head _ _ _ Hr).
  - destruct (lstrip (rev (lstrip s))) as [|x v] eqn:E; [discriminate|].
    apply lstrip_head in E. rewrite <- H. simpl rev.
    now rewrite last_last.
Qed.

Lemma comma_eqb (c : ascii) : ascii_eqb c ","%char = true <-> c = ","%char.
Proof. apply Ascii.eqb_eq. Qed.

Lemma split_comma_plain (k : str) :
  ~ In ","%char k -> split_comma k = [k].
Proof.
  induction k as [|c k IH]; intros H; [reflexivity|].
  cbn [split_comma]. destruct (ascii_eqb c ","%char) eqn:E.
  - apply comma_eqb in E. exfalso. apply H. now left.
  - rewrite IH; [reflexivity|]. intros Hin. apply H. now right.
Qed.

Lemma split_comma_app (k rest : str) :
  ~ In ","%char k ->
  split_comma (k ++ ","%char :: rest) = k :: split_comma rest.
Proof.
  induction k as [|c k IH]; intros H; [reflexivity|].
  cbn [split_comma app]. destruct (ascii_eqb c ","%char) eqn:E.
  - apply comma_eqb in E. exfalso. apply H. now left.
  - rewrite IH; [reflexivity|]. intros Hin. apply H. now right.
Qed.

Lemma split_comma_no_comma (s x : str) :
  In x (split_comma s) -> ~ In ","%char x.
Proof.
  revert x. induction s as [|c s IH]; intros x H.
  - destruct H as [<- | []]. intros [].
  - cbn [split_comma] in H. destruct (ascii_eqb c ","%char) eqn:E.
    + destruct H as [<- | H]; [intros [] | now apply IH].
    + destruct (split_comma s) as [|y ys] eqn:Es.
      * destruct H as [<- | []]. intros [-> | []]. now rewrite Ascii.eqb_refl in E.
      * destruct H as [<- | H].
        -- intros [-> | Hin]; [now rewrite Ascii.eqb_refl in E|].
           apply (IH y); [now left | exact Hin].
        -- apply IH. now right.
Qed.

Lemma split_comma_chars (s x : str) (c : ascii) :
  In x (split_comma s) -> In c x -> In c s.
Proof.
  revert x. induction s as [|a s IH]; intros x H Hc.
  - destruct H as [<- | []]. destruct Hc.
  - cbn [split_comma] in H. destruct (ascii_eqb a ","%char).
    + destruct H as [<- | H]; [destruct Hc | right; now apply (IH x)].
    + destruct (split_comma s) as [|y ys] eqn:Es.
      * destruct H as [<- | []]. destruct Hc as [<- | []]. now left.
      * destruct H as [<- | H].
        -- destruct Hc as [<- | Hc]; [now left | right].
           apply (IH y); [now left | exact Hc].
        -- right. apply (IH x); [now right | exact Hc].
Qed.

(** White space after the last piece stays in the last piece. *)
Lemma split_comma_app_blank (t ws : str) :
  ~ In ","%char ws ->
  exists init l,
    split_comma t = init ++ [l] /\ split_comma (t ++ ws) = init ++ [l ++ ws].
Proof.
  intros Hws. induction t as [|c t (init & l & Ht & Htw)].
  - exists [], []. split; [reflexivity|]. now apply split_comma_plain.
  - cbn [split_comma app]. destruct (ascii_eqb c ","%char).
    + exists ([] :: init), l. now rewrite Ht, Htw.
    + rewrite Ht, Htw. destruct init as [|i init].
      * now exists [], (c :: l).
      * now exists ((c :: i) :: init), l.
Qed.

Lemma blank_no_comma (ws : str) : blank ws -> ~ In ","%char ws.
Proof.
  unfold blank. intros H Hin. rewrite forallb_forall in H.
  specialize (H _ Hin). discriminate.
Qed.

Lemma join_comma_cons (k : str) (k' : str) (rest : list str) :
  join_comma (k :: k' :: rest) = k ++ ","%char :: join_comma (k' :: rest).
Proof. reflexivity. Qed.

Lemma split_comma_join (items : list str) :
  items <> [] -> Forall (fun x => ~ In ","%char x) items ->
  split_comma (join_comma items) = items.
Proof.
  intros Hne H. induction H as [|x items Hx Hitems IH]; [now destruct Hne|].
  destruct items as [|y items].
  - now apply split_comma_plain.
  - rewrite join_comma_cons. rewrite split_comma_app by exact Hx.
    f_equal. apply IH. discriminate.
Qed.

(** The outer [strip] of [_env_list] changes no keyword: the keywords are
    the stripped non-blank pieces of the value itself. *)
Lemma env_list_pieces (raw : str) (default : list str) :
  strip raw <> [] ->
  _env_list (Some raw) default
  = map strip (filter (fun x => truthy (strip x)) (split_comma raw)).
Proof.
  intros Hne. unfold _env_list, getenv.
  destruct (strip raw) as [|c u] eqn:E; [now destruct Hne|]. cbn [truthy].
  rewrite <- E. clear c u E Hne.
  destruct (strip_split raw) as (ws1 & ws2 & Hraw & H1 & H2).
  rewrite Hraw at 2. generalize (strip raw). intros t.
  assert (Hl : forall s, map strip (filter (fun x => truthy (strip x))
                                      (split_comma (ws1 ++ s)))
                         = map strip (filter (fun x => truthy (strip x))
                                        (split_comma s))).
  { intros s. clear Hraw.
    assert (Hs : ~ In ","%char s \/
                 exists a r, s = a ++ ","%char :: r /\ ~ In ","%char a).
    { clear. induction s as [|c s IH]; [left; intros []|].
      destruct (ascii_eqb c ","%char) eqn:E.
      - apply comma_eqb in E. subst c. right. exists [], s.
        split; [reflexivity | intros []].
      - assert (Hc : c <> ","%char)
          by (intros ->; now rewrite Ascii.eqb_refl in E).
        destruct IH as [IH | (a & r & -> & Ha)].
        + left. intros [-> | Hin]; [congruence | now apply IH].
        + right. exists (c :: a), r. split; [reflexivity|].
          intros [-> | Hin]; [congruence | now apply Ha]. }
    pose proof (blank_no_comma _ H1) as Hw1.
    assert (Hpad : forall a, strip (ws1 ++ a) = strip a).
    { intros a. rewrite <- (app_nil_r a) at 1.
      now apply (strip_pad ws1 a []). }
    destruct Hs as [Hs | (a & r & -> & Ha)].
    - rewrite !split_comma_plain.
      + cbn [filter]. rewrite Hpad.
        destruct (truthy (strip s)); cbn [map]; [now rewrite Hpad | reflexivity].
      + exact Hs.
      + intros Hin. apply in_app_or in Hin. tauto.
    - rewrite app_assoc, !split_comma_app.
      + cbn [filter]. rewrite Hpad.
        destruct (truthy (strip a)); cbn [map]; [now rewrite Hpad | reflexivity].
      + exact Ha.
      + intros Hin. apply in_app_or in Hin. tauto. }
  rewrite Hl.
  destruct (split_comma_app_blank t ws2 (blank_no_comma _ H2))
    as (init & l & -> & ->).
  assert (Hpad : strip (l ++ ws2) = strip l)
    by (now apply (strip_pad [] l ws2)).
  rewrite !filter_app, !map_app. cbn [filter]. rewrite Hpad.
  destruct (truthy (strip l)); cbn [map]; [now rewrite Hpad | reflexivity].
Qed.

Lemma str_eqb_eq (a b : str) : str_eqb a b = true <-> a = b.
Proof.
  unfold str_eqb. rewrite andb_true_iff, Nat.eqb_eq, startswith_spec. split.
  - intros [Hl [x ->]]. rewrite length_app in Hl.
    destruct x; [now rewrite app_nil_r | simpl in Hl; lia].
  - intros ->. split; [reflexivity | exists []; now rewrite app_nil_r].
Qed.

Lemma filter_none {A : Type} (f : A -> bool) (l : list A) :
  (forall x, In x l -> f x = false) -> filter f l = [].
Proof.
  induction l as [|x l IH]; intros H; [reflexivity|]. simpl.
  rewrite (H x) by (now left). apply IH. intros y Hy. apply H. now right.
Qed.

Lemma truthy_nonempty (s : str) : truthy s = true <-> s <> [].
Proof. destruct s; simpl; split; congruence. Qed.

Lemma join_comma_in (items : list str) (x : str) (c : ascii) :
  In x items -> In c x -> In c (join_comma items).
Proof.
  induction items as [|y items IH]; intros Hx Hc; [destruct Hx|].
  destruct items as [|z items].
  - destruct Hx as [-> | []]. exact Hc.
  - rewrite join_comma_cons. apply in_or_app.
    destruct Hx as [-> | Hx]; [now left | right; right; now apply IH].
Qed.

Lemma plain_keyword_head (k : str) :
  plain_keyword k -> exists c u, k = c :: u /\ is_space c = false.
Proof.
  intros (Hne & Hs & _). destruct k as [|c u]; [congruence|].
  exists c, u. split; [reflexivity|].
  exact (proj1 (strip_ends _ _ _ Hs)).
Qed.

Lemma padded_strip (item k : str) : padded item k -> strip item = strip k.
Proof. intros (ws1 & ws2 & -> & H1 & H2). now apply strip_pad. Qed.

(** X1.  [_env_list] returns the default when the variable is not set or
    holds white space only; otherwise every keyword it returns is not
    empty, has no white space at either end and holds no comma. *)
Theorem env_list_keywords (value : option str) (default : list str) :
  (_env_list None default = default) /\
  (blank (getenv value []) -> _env_list value default = default) /\
  (~ blank (getenv value []) ->
   forall k, In k (_env_list value default) -> plain_keyword k).
Proof.
  split; [reflexivity|]. unfold _env_list. split.
  - intros H. apply strip_blank in H. now rewrite H.
  - intros H k Hk.
    destruct (strip (getenv value [])) as [|c u] eqn:E.
    { exfalso. apply H. now apply strip_blank. }
    cbn [truthy] in Hk. apply in_map_iff in Hk.
    destruct Hk as (x & <- & Hx). apply filter_In in Hx.
    destruct Hx as [Hx Ht]. apply truthy_nonempty in Ht.
    split; [exact Ht|]. split; [apply strip_idem|].
    intros Hc. apply strip_in in Hc.
    exact (split_comma_no_comma _ _ Hx Hc).
Qed.

Lemma env_list_keywords_witness :
  _env_list (Some (lit " Roma , ,Torino")) [] = [lit "Roma"; lit "Torino"] /\
  (forall k, In k (_env_list (Some (lit " Roma , ,Torino")) []) ->
             plain_keyword k).
Proof.
  split; [reflexivity|].
  apply (proj2 (proj2 (env_list_keywords (Some (lit " Roma , ,Torino")) []))).
  intros H. discriminate H.
Defined.

(** X2.  A value that holds a comma and otherwise only commas and white
    space gives the empty keyword list, not the default; with such a
    GEO_KEYWORDS and the national rule switched off, no entry of any feed
    is kept. *)
Theorem env_list_only_commas (raw : str) (default : list str) :
  In ","%char raw -> only_commas raw ->
  _env_list (Some raw) default = [] /\
  forall (env : environ) (entries : list entry),
    GEO_KEYWORDS env = Some raw ->
    _include_national (INCLUDE_NATIONAL env) = false ->
    main env entries = Ok [].
Proof.
  intros Hc Honly.
  assert (Hempty : forall d, _env_list (Some raw) d = []).
  { intros d. rewrite env_list_pieces.
    - rewrite filter_none; [reflexivity|].
      intros x Hx. apply not_true_iff_false. intros Ht.
      apply truthy_nonempty in Ht. apply Ht. apply strip_blank.
      unfold blank. apply forallb_forall. intros c Hin.
      destruct (Honly c (split_comma_chars _ _ _ Hx Hin)) as [-> | Hs];
        [|exact Hs].
      destruct (split_comma_no_comma _ _ Hx Hin).
    - intros H. apply strip_blank in H. unfold blank in H.
      rewrite forallb_forall in H. specialize (H _ Hc). discriminate. }
  split; [apply Hempty|].
  intros env entries Hgeo Hflag. unfold main, main_loop.
  assert (Hskip : forall e, process_entry (main_config env) e = Ok None).
  { intros e. unfold process_entry, main_config. cbn [geo_kw include_national
      nat_mode_kw]. rewrite Hgeo, Hempty, Hflag. reflexivity. }
  induction entries as [|e entries IH]; [reflexivity|].
  cbn [for_each]. rewrite Hskip. exact IH.
Qed.

Lemma env_list_only_commas_witness :
  _env_list (Some (lit " , ,")) DEFAULT_GEO_KEYWORDS = [].
Proof.
  apply (env_list_only_commas (lit " , ,") DEFAULT_GEO_KEYWORDS).
  - simpl. tauto.
  - intros c Hc. simpl in Hc.
    destruct Hc as [<- | [<- | [<- | [<- | []]]]]; auto.
Defined.

(** X3.  Reading back a list of keywords written with commas between them
    and any white space around each: when the keywords are not empty, have
    no white space at their ends and no comma, and there is at least one,
    [_env_list] returns exactly these keywords, in order. *)
Theorem env_list_join (items kws default : list str) :
  kws <> [] -> Forall plain_keyword kws -> Forall2 padded items kws ->
  _env_list (Some (join_comma items)) default = kws.
Proof.
  intros Hne Hplain Hpad.
  assert (Hitems : Forall (fun x => ~ In ","%char x) items).
  { clear Hne. induction Hpad as [|item k items kws Hp _ IH]; constructor.
    - destruct Hp as (ws1 & ws2 & -> & H1 & H2). inversion Hplain; subst.
      intros Hin. apply in_app_or in Hin. destruct Hin as [Hin | Hin].
      + exact (blank_no_comma _ H1 Hin).
      + apply in_app_or in Hin. destruct Hin as [Hin | Hin].
        * destruct H3 as (_ & _ & Hk). exact (Hk Hin).
        * exact (blank_no_comma _ H2 Hin).
    - apply IH. now inversion Hplain. }
  assert (Hi : items <> []).
  { destruct Hpad; [congruence | discriminate]. }
  rewrite env_list_pieces.
  - rewrite (split_comma_join _ Hi Hitems). clear Hne Hi Hitems.
    induction Hpad as [|item k items kws Hp _ IH]; [reflexivity|].
    inversion Hplain as [|k' kws' Hk Hks]; subst.
    cbn [filter]. rewrite (padded_strip _ _ Hp).
    destruct Hk as (Hk1 & Hk2 & _). rewrite Hk2.
    destruct k; [congruence|]. cbn [truthy map].
    rewrite (padded_strip _ _ Hp), Hk2. f_equal. now apply IH.
  - intros H. apply strip_blank in H. unfold blank in H.
    rewrite forallb_forall in H.
    destruct Hpad as [|item k items kws Hp Hrest]; [congruence|].
    inversion Hplain as [|k' kws' Hk Hks]; subst.
    destruct (plain_keyword_head _ Hk) as (c & u & -> & Hc).
    destruct Hp as (ws1 & ws2 & -> & _).
    assert (Hin : In c (join_comma ((ws1 ++ (c :: u) ++ ws2) :: items))).
    { apply join_comma_in with (x := ws1 ++ (c :: u) ++ ws2); [now left|].
      apply in_or_app. right. now left. }
    specialize (H _ Hin). congruence.
Qed.

Lemma env_list_join_witness :
  _env_list (Some (join_comma [lit "Roma "; lit " Torino"]))
    DEFAULT_GEO_KEYWORDS
  = [lit "Roma"; lit "Torino"].
Proof.
  apply env_list_join.
  - discriminate.
  - repeat constructor; try discriminate; intros H; simpl in H;
      repeat (destruct H as [H | H]; [discriminate H|]); exact H.
  - constructor; [exists [], (lit " "); repeat split|].
    constructor; [exists (lit " "), []; repeat split|]. constructor.
Defined.

(** X4.  The national rule is switched off exactly when the value of
    INCLUDE_NATIONAL, without the white space around it, is one of "0",
    "false", "False", "no", "NO"; it is on when the variable is not set,
    white space around the value makes no difference, and other spellings
    such as "FALSE", "No", "off" or the empty string leave it on. *)
Theorem include_national_spellings :
  (forall value : option str,
      _include_national value = false <->
      In (strip (getenv value (lit "1"))) FALSEY) /\
  _include_national None = true /\
  (forall v ws1 ws2 : str,
      blank ws1 -> blank ws2 ->
      _include_national (Some (ws1 ++ v ++ ws2))
      = _include_national (Some v)) /\
  (forall v : str,
      In v (map lit ["FALSE"; "No"; "off"; ""; "00"; "n"]%string) ->
      _include_national (Some v) = true).
Proof.
  split; [|split; [reflexivity|split]].
  - intros value. unfold _include_national. fold FALSEY.
    rewrite negb_false_iff, existsb_exists. split.
    + intros (x & Hx & Hs). apply str_eqb_eq in Hs. now subst x.
    + intros H. eexists. split; [exact H | now apply str_eqb_eq].
  - intros v ws1 ws2 H1 H2. unfold _include_national, getenv.
    now rewrite strip_pad.
  - intros v Hv. simpl in Hv.
    repeat (destruct Hv as [<- | Hv]; [reflexivity|]). destruct Hv.
Qed.

(** ** Inclusion and the keywords of the configuration *)

Lemma plain_keywordb_spec (k : str) :
  plain_keywordb k = true -> plain_keyword k.
Proof.
  unfold plain_keywordb, plain_keyword.
  rewrite !andb_true_iff, negb_true_iff, truthy_nonempty, str_eqb_eq.
  intros [[H1 H2] H3]. split; [exact H1|]. split; [exact H2|].
  intros Hin. apply not_true_iff_false in H3. apply H3.
  apply existsb_exists. exists ","%char. split; [exact Hin | reflexivity].
Qed.

Lemma default_keywords_plain :
  Forall plain_keyword DEFAULT_GEO_KEYWORDS /\
  Forall plain_keyword DEFAULT_NATIONAL_MODE_KEYWORDS.
Proof.
  split; apply Forall_forall; intros k Hk; apply plain_keywordb_spec;
    revert k Hk; apply forallb_forall; reflexivity.
Qed.

(** The keywords of every configuration that [main] builds are plain. *)
Lemma main_config_keywords_plain (env : environ) :
  Forall plain_keyword (geo_kw (main_config env)) /\
  Forall plain_keyword (nat_mode_kw (main_config env)).
Proof.
  assert (H : forall value default,
             Forall plain_keyword default ->
             Forall plain_keyword (_env_list value default)).
  { intros value default Hd. unfold _env_list.
    destruct (strip (getenv value [])) as [|c u] eqn:E; [exact Hd|].
    cbn [truthy]. apply Forall_forall. intros k Hk.
    apply in_map_iff in Hk. destruct Hk as (x & <- & Hx).
    apply filter_In in Hx. destruct Hx as [Hx Ht].
    apply truthy_nonempty in Ht.
    split; [exact Ht|]. split; [apply strip_idem|].
    intros Hc. apply strip_in in Hc.
    exact (split_comma_no_comma _ _ Hx Hc). }
  destruct default_keywords_plain as [Hg Hn].
  split; apply H; assumption.
Qed.

Lemma is_space_lower_char (c : ascii) : is_space (lower_char c) = is_space c.
Proof.
  pose proof (forall_chars
    (fun c => Bool.eqb (is_space (lower_char c)) (is_space c)) eq_refl c) as E.
  now apply eqb_prop in E.
Qed.

Lemma blank_lower (t : str) : blank t -> blank (lower t).
Proof.
  unfold blank, lower. induction t as [|c t IH]; simpl; [reflexivity|].
  rewrite is_space_lower_char. intros H. apply andb_true_iff in H.
  destruct H as [-> H]. now apply IH.
Qed.

(** A plain keyword does not occur in white space. *)
Lemma plain_keyword_not_in_blank (k t : str) :
  plain_keyword k -> blank t -> ~ substring (lower k) (lower t).
Proof.
  intros Hk Ht [a [b E]].
  destruct (plain_keyword_head _ Hk) as (c & u & -> & Hc).
  apply blank_lower in Ht. unfold blank in Ht. rewrite E in Ht.
  rewrite forallb_forall in Ht. specialize (Ht (lower_char c)).
  rewrite is_space_lower_char, Hc in Ht.
  assert (false = true); [|discriminate].
  apply Ht. apply in_or_app. right. now left.
Qed.

Lemma matches_any_blank (t : str) (kws : list str) :
  Forall plain_keyword kws -> blank t -> matches_any t kws = false.
Proof.
  intros Hk Ht. apply not_true_iff_false. intros H.
  apply matches_any_spec in H. destruct H as (k & Hin & Hs).
  rewrite Forall_forall in Hk.
  exact (plain_keyword_not_in_blank _ _ (Hk k Hin) Ht Hs).
Qed.

(** X5.  Under every environment, an entry whose blob is white space only
    is skipped by the loop without an error, whatever its timestamps; in
    particular an entry with no title, summary, description or link.
    The loop over the entries gives the same result with and without
    such an entry. *)
Theorem blank_entry_skipped (env : environ) (e : entry) :
  blank (entry_blob e) ->
  included (main_config env) e = false /\
  process_entry (main_config env) e = Ok None /\
  forall before after,
    main_loop (main_config env) (before ++ e :: after)
    = main_loop (main_config env) (before ++ after).
Proof.
  intros Hb.
  destruct (main_config_keywords_plain env) as [Hg _].
  assert (Hi : included (main_config env) e = false).
  { unfold included, should_include.
    rewrite (matches_any_blank _ _ Hg Hb).
    assert (Hn : contains (lit "nazionale") (lower (entry_blob e)) = false).
    { apply not_true_iff_false. intros H. apply contains_spec in H.
      apply (plain_keyword_not_in_blank (lit "nazionale") (entry_blob e));
        [apply plain_keywordb_spec; reflexivity | exact Hb | exact H]. }
    rewrite Hn. now destruct (include_national (main_config env)). }
  assert (Hp : process_entry (main_config env) e = Ok None).
  { unfold included in Hi. unfold process_entry. now rewrite Hi. }
  split; [exact Hi|].
  split; [exact Hp|]. intros before after.
  now apply main_loop_skip.
Qed.

Lemma blank_entry_skipped_witness :
  process_entry
    (main_config (mkenviron (Some (lit "Roma")) None None))
    (mkentry None (Some []) None None (Some (mktime 2024 3 5)) None)
  = Ok None.
Proof.
  apply (proj1 (proj2
    (blank_entry_skipped (mkenviron (Some (lit "Roma")) None None)
       (mkentry None (Some []) None None (Some (mktime 2024 3 5)) None)
       eq_refl))).
Defined.

Lemma should_include_iff (blob : str) (geo : list str) (flag : bool)
    (nat_kw : list str) :
  should_include blob geo flag nat_kw = true <->
  matches_any blob geo = true \/
  (flag = true /\ contains (lit "nazionale") (lower blob) = true /\
   matches_any blob nat_kw = true).
Proof.
  unfold should_include.
  destruct (matches_any blob geo); [tauto|].
  destruct flag; [|intuition discriminate].
  destruct (contains (lit "nazionale") (lower blob));
    destruct (matches_any blob nat_kw); simpl; intuition discriminate.
Qed.

Lemma substring_pad (k t pre post : str) :
  substring k t -> substring k (pre ++ t ++ post).
Proof.
  intros [a [b ->]]. exists (pre ++ a), (b ++ post).
  now rewrite <- !app_assoc.
Qed.

Lemma matches_any_grows (t pre post : str) (kws kws' : list str) :
  incl kws kws' -> matches_any t kws = true ->
  matches_any (pre ++ t ++ post) kws' = true.
Proof.
  intros Hi H. apply matches_any_spec in H. destruct H as (k & Hin & Hs).
  apply matches_any_spec. exists k. split; [now apply Hi|].
  rewrite !lower_app. now apply substring_pad.
Qed.

(** X6.  For texts and keywords of the alphabet U+0000..U+00FF, on which
    [lower] works character by character, inclusion only grows: an
    included blob stays included when text is added before or after it,
    when keywords are added to either list and when the national rule is
    switched on; so an entry is included as soon as its title alone, its
    summary alone or its link alone is. *)
Theorem should_include_grows (blob pre post : str) (geo geo' : list str)
    (flag flag' : bool) (nat_kw nat_kw' : list str) :
  should_include blob geo flag nat_kw = true ->
  incl geo geo' -> incl nat_kw nat_kw' -> (flag = true -> flag' = true) ->
  should_include (pre ++ blob ++ post) geo' flag' nat_kw' = true /\
  forall e : entry,
    (blob = entry_title e \/ blob = entry_summary e \/ blob = entry_link e) ->
    should_include (entry_blob e) geo' flag' nat_kw' = true.
Proof.
  intros H Hg Hn Hf.
  assert (Hgrow : forall pre post,
             should_include (pre ++ blob ++ post) geo' flag' nat_kw' = true).
  { intros a b. apply should_include_iff in H. apply should_include_iff.
    destruct H as [H | (H1 & H2 & H3)].
    - left. now apply matches_any_grows with (kws := geo).
    - right. split; [now apply Hf|]. split.
      + apply contains_spec. rewrite !lower_app. apply substring_pad.
        now apply contains_spec.
      + now apply matches_any_grows with (kws := nat_kw). }
  split; [apply Hgrow|]. intros e [-> | [-> | ->]]; unfold entry_blob.
  - apply (Hgrow []).
  - specialize (Hgrow (entry_title e ++ [newline]) ([newline] ++ entry_link e)).
    now rewrite <- !app_assoc in Hgrow.
  - specialize (Hgrow (entry_title e ++ [newline] ++ entry_summary e
                         ++ [newline]) []).
    now rewrite app_nil_r, <- !app_assoc in Hgrow.
Qed.

Lemma should_include_grows_witness :
  should_include (lit "Avviso: sciopero a Monza, 5 marzo") 
    (lit "Roma" :: DEFAULT_GEO_KEYWORDS) true [] = true.
Proof.
  apply (should_include_grows (lit "Monza") (lit "Avviso: sciopero a ")
           (lit ", 5 marzo") DEFAULT_GEO_KEYWORDS
           (lit "Roma" :: DEFAULT_GEO_KEYWORDS) false true [] []).
  - reflexivity.
  - intros k Hk. now right.
  - intros k Hk. exact Hk.
  - intros _. reflexivity.
Defined.

Lemma detect_mode_default_keywords (text : str) :
  matches_any text DEFAULT_NATIONAL_MODE_KEYWORDS = true ->
  detect_mode text <> Generic.
Proof.
  intros H Hg. apply detect_mode_generic in Hg.
  apply not_true_iff_false in Hg. apply Hg.
  apply matches_any_spec in H. destruct H as (k & Hin & Hs).
  apply any_in_spec. exists (lower k). split; [|exact Hs].
  apply mode_terms_default. now apply in_map.
Qed.

(** X7.  The inclusion rule and the classifier agree on national items:
    an entry that is included although no geographic keyword matches has
    the national rule on and is classified with scope National; with the
    default national-mode keywords its mode is not Generic. *)
Theorem national_rule_classification (blob : str) (geo : list str)
    (flag : bool) (nat_kw : list str) :
  matches_any blob geo = false ->
  should_include blob geo flag nat_kw = true ->
  flag = true /\ detect_scope blob = National /\
  (nat_kw = DEFAULT_NATIONAL_MODE_KEYWORDS -> detect_mode blob <> Generic).
Proof.
  intros Hg H. apply should_include_iff in H.
  destruct H as [H | (Hf & Hn & Hm)]; [congruence|].
  split; [exact Hf|]. split.
  - unfold detect_scope. now rewrite Hn.
  - intros ->. now apply detect_mode_default_keywords.
Qed.

Lemma national_rule_classification_witness :
  true = true /\ detect_scope national_rail_blob = National /\
  (DEFAULT_NATIONAL_MODE_KEYWORDS = DEFAULT_NATIONAL_MODE_KEYWORDS ->
   detect_mode national_rail_blob <> Generic).
Proof.
  apply (national_rule_classification national_rail_blob
           DEFAULT_GEO_KEYWORDS true DEFAULT_NATIONAL_MODE_KEYWORDS);
    reflexivity.
Defined.

(** X8.  The scope is decided by the first marker found in the order
    "nazionale", "regionale", "provinc", "locale", and is Unspecified
    when none occurs; since "locale" is part of "trasporto pubblico
    locale", a blob naming the latter is a local-transit item whose scope
    is never Unspecified. *)
Theorem detect_scope_priority (text : str) :
  let t := lower text in
  (detect_scope text = National <-> substring (lit "nazionale") t) /\
  (detect_scope text = Regional <->
   ~ substring (lit "nazionale") t /\ substring (lit "regionale") t) /\
  (detect_scope text = Province <->
   ~ substring (lit "nazionale") t /\ ~ substring (lit "regionale") t /\
   substring (lit "provinc") t) /\
  (detect_scope text = Local <->
   ~ substring (lit "nazionale") t /\ ~ substring (lit "regionale") t /\
   ~ substring (lit "provinc") t /\ substring (lit "locale") t) /\
  (detect_scope text = Unspecified <->
   ~ substring (lit "nazionale") t /\ ~ substring (lit "regionale") t /\
   ~ substring (lit "provinc") t /\ ~ substring (lit "locale") t) /\
  (substring (lit "trasporto pubblico locale") t ->
   detect_mode text = LocalTransit /\ detect_scope text <> Unspecified).
Proof.
  intros t. unfold detect_scope. fold t. rewrite <- !contains_spec.
  assert (Hloc : contains (lit "trasporto pubblico locale") t = true ->
                 contains (lit "locale") t = true).
  { rewrite !contains_spec. apply substring_trans.
    apply contains_spec. reflexivity. }
  assert (Hmode : contains (lit "trasporto pubblico locale") t = true ->
                  detect_mode text = LocalTransit).
  { intros H. unfold detect_mode. fold t.
    replace (any_in LOCAL_TRANSIT_TERMS t) with true; [reflexivity|].
    symmetry. apply any_in_spec.
    exists (lit "trasporto pubblico locale").
    split; [now left | now apply contains_spec]. }
  destruct (contains (lit "nazionale") t),
    (contains (lit "regionale") t), (contains (lit "provinc") t),
    (contains (lit "locale") t);
    repeat split; try discriminate; try tauto; try congruence;
    try (intros H; specialize (Hloc H); discriminate);
    try (intros; intuition discriminate);
    try (intros H; exact (Hmode H)).
Qed.

Lemma matches_any_app (t : str) (kws1 kws2 : list str) :
  matches_any t (kws1 ++ kws2) = matches_any t kws1 || matches_any t kws2.
Proof.
  unfold matches_any. induction kws1 as [|k kws1 IH]; simpl; [reflexivity|].
  rewrite IH. now destruct (contains (lower k) (lower t)).
Qed.

Lemma matches_any_drop_keyword (text k k' : str) (kws1 kws2 : list str) :
  In k' (kws1 ++ kws2) -> substring (lower k') (lower k) ->
  matches_any text (kws1 ++ k :: kws2) = matches_any text (kws1 ++ kws2).
Proof.
  intros Hin Hsub.
  destruct (matches_any text (kws1 ++ kws2)) eqn:E.
  - apply matches_any_spec in E. destruct E as (x & Hx & Hs).
    apply matches_any_spec. exists x. split; [|exact Hs].
    apply in_or_app. apply in_app_or in Hx.
    destruct Hx; [now left | right; now right].
  - apply not_true_iff_false. intros H. apply not_true_iff_false in E.
    apply E. apply matches_any_spec in H. destruct H as (x & Hx & Hs).
    apply matches_any_spec. apply in_app_or in Hx.
    destruct Hx as [Hx | [<- | Hx]].
    + exists x. split; [apply in_or_app; now left | exact Hs].
    + exists k'. split; [exact Hin|]. eapply substring_trans; eassumption.
    + exists x. split; [apply in_or_app; now right | exact Hs].
Qed.

(** X9.  A keyword that contains another keyword of the list, letter case
    aside, is redundant: removing it changes no result of [matches_any].
    In the default geographic list "MILANO" and "MILAN" are redundant
    beside "MI", and in the default national-mode list "AUTOBUS",
    "METROPOLITANA" and "TRENITALIA" beside "BUS", "METRO" and "TRENI".
    The result for two lists together is the disjunction of the results
    for each. *)
Theorem matches_any_redundant_keyword :
  (forall (text k k' : str) (kws1 kws2 : list str),
      In k' (kws1 ++ kws2) -> substring (lower k') (lower k) ->
      matches_any text (kws1 ++ k :: kws2)
      = matches_any text (kws1 ++ kws2)) /\
  (forall text : str,
      matches_any text DEFAULT_GEO_KEYWORDS
      = matches_any text (skipn 2 DEFAULT_GEO_KEYWORDS)) /\
  (forall text : str,
      matches_any text DEFAULT_NATIONAL_MODE_KEYWORDS
      = matches_any text
          (filter (fun k => negb (existsb (str_eqb k)
                                    (map lit ["AUTOBUS"; "METROPOLITANA";
                                              "TRENITALIA"]%string)))
             DEFAULT_NATIONAL_MODE_KEYWORDS)) /\
  (forall (text : str) (kws1 kws2 : list str),
      matches_any text (kws1 ++ kws2)
      = matches_any text kws1 || matches_any text kws2).
Proof.
  split; [exact matches_any_drop_keyword|].
  split; [|split; [|exact matches_any_app]].
  - intros text. unfold DEFAULT_GEO_KEYWORDS. cbn [map skipn].
    etransitivity;
      [apply (matches_any_drop_keyword text (lit "MILANO") (lit "MI") []);
       [simpl; tauto | apply contains_spec; reflexivity]|].
    apply (matches_any_drop_keyword text (lit "MILAN") (lit "MI") []);
      [simpl; tauto | apply contains_spec; reflexivity].
  - intros text.
    change DEFAULT_NATIONAL_MODE_KEYWORDS with
      (map lit ["TRASPORTO PUBBLICO LOCALE"; "TPL"]%string
         ++ lit "AUTOBUS"
         :: map lit ["BUS"; "METRO"]%string
         ++ lit "METROPOLITANA"
         :: map lit ["TRAM"; "FERROVI"; "TRENI"]%string
         ++ lit "TRENITALIA"
         :: map lit ["RFI"; "ITALO"; "TRENORD"; "AEREO"; "AEROPORT"; "ENAV";
                     "HANDLING"; "AUTOSTRAD"; "TAXI"]%string) at 1.
    rewrite (matches_any_drop_keyword text (lit "AUTOBUS") (lit "BUS"));
      [|simpl; tauto | apply contains_spec; reflexivity].
    rewrite app_assoc.
    rewrite (matches_any_drop_keyword text (lit "METROPOLITANA")
               (lit "METRO"));
      [|simpl; tauto | apply contains_spec; reflexivity].
    rewrite app_assoc.
    rewrite (matches_any_drop_keyword text (lit "TRENITALIA") (lit "TRENI"));
      [|simpl; tauto | apply contains_spec; reflexivity].
    reflexivity.
Qed.

Lemma matches_any_redundant_keyword_witness :
  matches_any (lit "Treni fermi a Milano")
    ([] ++ lit "MILANO" :: [lit "MI"; lit "LOMBARDIA"])
  = matches_any (lit "Treni fermi a Milano")
      ([] ++ [lit "MI"; lit "LOMBARDIA"]).
Proof.
  apply (proj1 matches_any_redundant_keyword) with (k' := lit "MI").
  - simpl. tauto.
  - apply contains_spec. reflexivity.
Defined.

(** ** The loop over the feed *)

Lemma extract_dates_ok (text : str) :
  exists dates,
    extract_dates text = Ok dates /\ Forall valid_date dates /\
    StronglySorted date_lt dates.
Proof.
  destruct (extract_dates_found text) as (found & -> & Hin).
  exists (sorted_set found). split; [reflexivity|].
  split; [|apply sorted_set_sorted].
  apply Forall_forall. intros dt Hdt. apply sorted_set_in, Hin in Hdt.
  destruct Hdt as (pat & m & _ & _ & ys & ms & ds & _ & _ & _ & _ & Hv).
  exact Hv.
Qed.

Lemma date_add_day_raise (d : date) (err : exn) :
  valid_date d -> date_add_day d = Raise err ->
  err = OverflowError /\ d = date_max.
Proof.
  intros Hv H. split.
  - unfold date_add_day in H.
    destruct (day d <? _); [discriminate|].
    destruct (month d <? 12); [discriminate|].
    destruct (year d <? MAXYEAR); [discriminate | congruence].
  - destruct (date_eqb d date_max) eqn:E; [now apply date_eqb_eq|].
    assert (Hne : d <> date_max).
    { intros ->. vm_compute in E. discriminate. }
    destruct (date_add_day_total d Hv Hne) as [d' Hd']. congruence.
Qed.

(** What the loop body does with an included entry, by the dates it
    chooses from. *)
Lemma process_entry_steps (cfg : config) (e : entry) :
  included cfg e = true ->
  (exists dates,
      candidates e dates /\ Forall valid_date dates /\
      process_entry cfg e
      = (span <- choose_event_span dates ;;
         match span with
         | None => Ok None
         | Some (dtstart, dtend) =>
             Ok (Some (mkevent (make_uid (entry_link e) (entry_title e))
                         dtstart dtend (detect_mode (entry_blob e))
                         (detect_scope (entry_blob e))
                         match entry_link e with
                         | [] => None
                         | _ => Some (entry_link e)
                         end))
         end)) \/
  (extract_dates (entry_blob e) = Ok [] /\ entry_timestamp e = None /\
   process_entry cfg e = Ok None) \/
  (extract_dates (entry_blob e) = Ok [] /\
   exists pp,
     entry_timestamp e = Some pp /\
     date_new (tm_year pp) (tm_mon pp) (tm_mday pp) = Raise ValueError /\
     process_entry cfg e = Raise ValueError).
Proof.
  unfold included. intros Hi.
  destruct (extract_dates_ok (entry_blob e)) as (dates & Hd & Hv & _).
  rewrite (process_entry_included cfg e dates Hi Hd).
  destruct dates as [|d ds].
  - destruct (entry_timestamp e) as [pp|] eqn:Et.
    + destruct (date_new (tm_year pp) (tm_mon pp) (tm_mday pp))
        as [d|err] eqn:En.
      * left. exists [d]. split; [|split; [|reflexivity]].
        -- right. split; [exact Hd|]. now exists pp, d.
        -- constructor; [|constructor]. apply date_new_ok in En.
           destruct En as [-> Hvd]. exact Hvd.
      * right. right. split; [exact Hd|]. exists pp.
        pose proof (date_new_raise _ _ _ _ En) as ->.
        split; [reflexivity|]. split; [exact En|].
        rewrite ?En. reflexivity.
    + right. left. auto.
  - left. exists (d :: ds). split; [|split; [exact Hv | reflexivity]].
    left. split; [discriminate | exact Hd].
Qed.

Lemma choose_event_span_cons (d0 : date) (rest : list date) :
  Forall valid_date (d0 :: rest) ->
  (exists end_,
      date_add_day (max_date d0 rest) = Ok end_ /\
      choose_event_span (d0 :: rest)
      = Ok (Some (min_date d0 rest, end_))) \/
  (max_date d0 rest = date_max /\
   choose_event_span (d0 :: rest) = Raise OverflowError).
Proof.
  intros Hv. unfold choose_event_span.
  destruct (date_add_day (max_date d0 rest)) as [end_|err] eqn:E.
  - left. now exists end_.
  - right. rewrite Forall_forall in Hv.
    destruct (date_add_day_raise _ _
                (Hv _ (proj1 (max_date_spec d0 rest))) E) as [-> ->].
    auto.
Qed.

Lemma main_loop_acc (cfg : config) (entries : list entry)
    (kept : list event) :
  for_each
    (fun kept e =>
       r <- process_entry cfg e ;;
       Ok (match r with Some ev => kept ++ [ev] | None => kept end))
    entries kept
  = (r <- main_loop cfg entries ;; Ok (kept ++ r)).
Proof.
  unfold main_loop. revert kept.
  induction entries as [|e entries IH]; intros kept.
  - simpl. now rewrite app_nil_r.
  - cbn [for_each]. destruct (process_entry cfg e) as [[ev|]|err];
      cbn [bind]; [| |reflexivity].
    + rewrite (IH (kept ++ [ev])), (IH ([] ++ [ev])).
      destruct (for_each _ entries []) as [r|err]; cbn [bind];
        [now rewrite <- app_assoc | reflexivity].
    + rewrite (IH kept), (IH []).
      destruct (for_each _ entries []) as [r|err]; reflexivity.
Qed.

Lemma main_loop_cons (cfg : config) (e : entry) (entries : list entry) :
  main_loop cfg (e :: entries)
  = (r <- process_entry cfg e ;;
     rest <- main_loop cfg entries ;;
     Ok (match r with Some ev => ev :: rest | None => rest end)).
Proof.
  unfold main_loop at 1. cbn [for_each].
  destruct (process_entry cfg e) as [[ev|]|err]; cbn [bind];
    [| |reflexivity]; rewrite main_loop_acc;
    destruct (main_loop cfg entries); reflexivity.
Qed.


Lemma process_entry_excluded (cfg : config) (e : entry) :
  included cfg e = false -> process_entry cfg e = Ok None.
Proof. unfold included, process_entry. now intros ->. Qed.

Lemma candidates_nonempty (e : entry) (dates : list date) :
  candidates e dates -> exists d0 rest, dates = d0 :: rest.
Proof.
  intros [[Hne _] | (_ & pp & d & _ & _ & ->)].
  - destruct dates as [|d0 rest]; [congruence | now exists d0, rest].
  - now exists d, [].
Qed.

Lemma entry_span_steps (e : entry) :
  (exists dates,
      candidates e dates /\ Forall valid_date dates /\
      entry_span e = choose_event_span dates) \/
  (extract_dates (entry_blob e) = Ok [] /\ entry_timestamp e = None /\
   entry_span e = Ok None) \/
  (extract_dates (entry_blob e) = Ok [] /\
   exists pp,
     entry_timestamp e = Some pp /\
     date_new (tm_year pp) (tm_mon pp) (tm_mday pp) = Raise ValueError /\
     entry_span e = Raise ValueError).
Proof.
  unfold entry_span.
  destruct (extract_dates_ok (entry_blob e)) as (dates & Hd & Hv & _).
  rewrite Hd. cbn [bind].
  destruct dates as [|d ds].
  - destruct (entry_timestamp e) as [pp|] eqn:Et.
    + destruct (date_new (tm_year pp) (tm_mon pp) (tm_mday pp))
        as [d|err] eqn:En.
      * left. exists [d]. split; [|split; [|reflexivity]].
        -- right. split; [exact Hd|]. now exists pp, d.
        -- constructor; [|constructor]. apply date_new_ok in En.
           destruct En as [-> Hvd]. exact Hvd.
      * right. right. split; [reflexivity|]. exists pp.
        pose proof (date_new_raise _ _ _ _ En) as ->.
        split; [reflexivity|]. split; [exact En | reflexivity].
    + right. left. auto.
  - left. exists (d :: ds). split; [|split; [exact Hv | reflexivity]].
    left. split; [discriminate | exact Hd].
Qed.

(** The loop body for an included entry: the span, then the event. *)
Lemma process_entry_span (cfg : config) (e : entry) :
  included cfg e = true ->
  process_entry cfg e
  = (span <- entry_span e ;;
     match span with
     | None => Ok None
     | Some (dtstart, dtend) =>
         Ok (Some (mkevent (make_uid (entry_link e) (entry_title e))
                     dtstart dtend (detect_mode (entry_blob e))
                     (detect_scope (entry_blob e))
                     match entry_link e with
                     | [] => None
                     | _ => Some (entry_link e)
                     end))
     end).
Proof.
  unfold included. intros Hi.
  destruct (extract_dates_ok (entry_blob e)) as (dates & Hd & _).
  rewrite (process_entry_included cfg e dates Hi Hd).
  unfold entry_span. rewrite Hd. cbn [bind].
  destruct dates as [|d ds]; [|reflexivity].
  destruct (entry_timestamp e) as [pp|]; [|reflexivity].
  destruct (date_new (tm_year pp) (tm_mon pp) (tm_mday pp)); reflexivity.
Qed.

Lemma candidates_unique (e : entry) (d1 d2 : list date) :
  candidates e d1 -> candidates e d2 -> d1 = d2.
Proof.
  intros [[Hn1 H1] | (H1 & pp1 & x1 & Ht1 & Hx1 & ->)]
         [[Hn2 H2] | (H2 & pp2 & x2 & Ht2 & Hx2 & ->)].
  - congruence.
  - rewrite H1 in H2. injection H2 as ->. now destruct Hn1.
  - rewrite H1 in H2. injection H2 as <-. now destruct Hn2.
  - rewrite Ht1 in Ht2. injection Ht2 as <-. congruence.
Qed.

Lemma choose_event_span_overflows (dates : list date) :
  Forall valid_date dates -> In date_max dates ->
  choose_event_span dates = Raise OverflowError.
Proof.
  intros Hv Hin. destruct dates as [|d0 rest]; [destruct Hin|].
  assert (Hm : max_date d0 rest = date_max).
  { destruct (max_date_spec d0 rest) as [Hi Hmax].
    apply date_le_antisym; [|now apply Hmax].
    apply date_max_greatest. rewrite Forall_forall in Hv. now apply Hv. }
  destruct (choose_event_span_cons d0 rest Hv)
    as [(end_ & Ha & _) | (_ & Hs)]; [|exact Hs].
  rewrite Hm in Ha. vm_compute in Ha. discriminate.
Qed.

(** X11.  The part of the loop body that finds the dates of an entry and
    chooses its span fails in two ways and no other: with [ValueError],
    exactly when the blob holds no date and the fallback timestamp is not
    a date of the calendar, and with [OverflowError], exactly when
    9999-12-31 is among the dates the span is chosen from.  Such a
    failure at an included entry is the failure of the loop body, an
    entry that is not included never fails, and the loop fails exactly
    when its body fails at some entry after entries that all pass, with
    the error of that entry. *)
Theorem entry_span_failures (cfg : config) :
  (forall (e : entry) (err : exn),
      entry_span e = Raise err <->
      (err = ValueError /\
       extract_dates (entry_blob e) = Ok [] /\
       exists pp,
         entry_timestamp e = Some pp /\
         date_new (tm_year pp) (tm_mon pp) (tm_mday pp)
         = Raise ValueError) \/
      (err = OverflowError /\
       exists dates, candidates e dates /\ In date_max dates)) /\
  (forall (e : entry) (err : exn),
      included cfg e = true -> entry_span e = Raise err ->
      process_entry cfg e = Raise err) /\
  (forall e : entry,
      included cfg e = false -> process_entry cfg e = Ok None) /\
  (forall (entries : list entry) (err : exn),
      main_loop cfg entries = Raise err <->
      exists before e after,
        entries = before ++ e :: after /\
        (exists evs, main_loop cfg before = Ok evs) /\
        process_entry cfg e = Raise err).
Proof.
  split; [|split; [|split]].
  - intros e err. split.
    + intros H.
      destruct (entry_span_steps e)
        as [(dates & Hc & Hv & Hp)
           | [(_ & _ & Hp) | (Hd & pp & Ht & Hn & Hp)]].
      * right. destruct (candidates_nonempty _ _ Hc) as (d0 & rest & ->).
        rewrite Hp in H.
        destruct (choose_event_span_cons d0 rest Hv)
          as [(end_ & _ & Hs) | (Hm & Hs)]; rewrite Hs in H;
          [discriminate|].
        injection H as <-. split; [reflexivity|].
        exists (d0 :: rest). split; [exact Hc|].
        rewrite <- Hm. apply max_date_spec.
      * congruence.
      * left. rewrite Hp in H. injection H as <-.
        split; [reflexivity|]. split; [exact Hd|]. now exists pp.
    + intros [(-> & Hd & pp & Ht & Hn) | (-> & dates & Hc & Hin)].
      * destruct (entry_span_steps e)
          as [(dates & Hc & _) | [(_ & Ht' & _) | (_ & _ & _ & _ & Hp)]].
        -- destruct Hc as [[Hne Hd'] | (_ & pp' & d & Ht' & Hn' & _)].
           ++ rewrite Hd in Hd'. injection Hd' as <-. now destruct Hne.
           ++ rewrite Ht in Ht'. injection Ht' as <-. congruence.
        -- congruence.
        -- exact Hp.
      * destruct (entry_span_steps e)
          as [(dates' & Hc' & Hv & Hp)
             | [(Hd & Ht & _) | (Hd & pp & Ht & Hn & _)]].
        -- rewrite Hp, (candidates_unique _ _ _ Hc' Hc) in *.
           now apply choose_event_span_overflows.
        -- destruct Hc as [[Hne Hd'] | (_ & pp' & d & Ht' & _)].
           ++ rewrite Hd in Hd'. injection Hd' as <-. now destruct Hne.
           ++ congruence.
        -- destruct Hc as [[Hne Hd'] | (_ & pp' & d & Ht' & Hn' & _)].
           ++ rewrite Hd in Hd'. injection Hd' as <-. now destruct Hne.
           ++ rewrite Ht in Ht'. injection Ht' as <-. congruence.
  - intros e err Hi H. now rewrite (process_entry_span _ _ Hi), H.
  - intros e Hi. now apply process_entry_excluded.
  - intros entries err. split.
    + induction entries as [|e entries IH]; [discriminate|].
      rewrite main_loop_cons.
      destruct (process_entry cfg e) as [r|err'] eqn:Ep; cbn [bind].
      * destruct (main_loop cfg entries) as [rest|err''] eqn:Em;
          [discriminate|]. cbn [bind]. intros H. injection H as ->.
        destruct (IH eq_refl) as (before & x & after & -> & (evs & Hb) & Hx).
        exists (e :: before), x, after. split; [reflexivity|].
        split; [|exact Hx]. rewrite main_loop_cons, Ep, Hb. cbn [bind].
        eexists. reflexivity.
      * intros H. injection H as ->. exists [], e, entries.
        split; [reflexivity|]. split; [now exists [] | exact Ep].
    + intros (before & e & after & -> & (evs & Hb) & He).
      revert evs Hb. induction before as [|x before IH]; intros evs Hb.
      * cbn [app]. rewrite main_loop_cons, He. reflexivity.
      * cbn [app]. rewrite main_loop_cons in Hb |- *.
        destruct (process_entry cfg x) as [r|]; [|discriminate].
        cbn [bind] in Hb |- *.
        destruct (main_loop cfg before) as [rest|] eqn:Eb; [|discriminate].
        rewrite (IH rest eq_refl). reflexivity.
Qed.

Lemma date_lt_le (a b : date) : date_lt a b -> date_le a b.
Proof. date_order. lia. Qed.

(** X12.  Every event of the calendar comes from an included entry and
    carries the identifier of its link and title, the mode and the scope
    of its blob, and its link as URL exactly when the link is not empty;
    its start and end are dates of the calendar, the start is before the
    end, the start is one of the dates the span was chosen from and each
    of these dates lies from the start on and before the end. *)
Theorem event_invariants (cfg : config) (e : entry) (ev : event) :
  process_entry cfg e = Ok (Some ev) ->
  included cfg e = true /\
  ev_uid ev = make_uid (entry_link e) (entry_title e) /\
  ev_mode ev = detect_mode (entry_blob e) /\
  ev_scope ev = detect_scope (entry_blob e) /\
  (ev_url ev = None <-> entry_link e = []) /\
  (forall l, ev_url ev = Some l -> l = entry_link e) /\
  valid_date (ev_dtstart ev) /\ valid_date (ev_dtend ev) /\
  date_lt (ev_dtstart ev) (ev_dtend ev) /\
  exists dates,
    candidates e dates /\ In (ev_dtstart ev) dates /\
    forall d, In d dates ->
              date_le (ev_dtstart ev) d /\ date_lt d (ev_dtend ev).
Proof.
  intros H. destruct (included cfg e) eqn:Hi.
  2:{ rewrite (process_entry_excluded _ _ Hi) in H. discriminate. }
  split; [reflexivity|].
  destruct (process_entry_steps cfg e Hi)
    as [(dates & Hc & Hv & Hp) | [(_ & _ & Hp) | (_ & pp & _ & _ & Hp)]];
    [|congruence|congruence].
  destruct (candidates_nonempty _ _ Hc) as (d0 & rest & ->).
  rewrite Hp in H.
  destruct (choose_event_span_cons d0 rest Hv)
    as [(end_ & Hend & Hs) | (_ & Hs)]; rewrite Hs in H; [|discriminate].
  cbn [bind] in H. injection H as <-. cbn [ev_uid ev_mode ev_scope ev_url
    ev_dtstart ev_dtend].
  destruct (min_date_spec d0 rest) as [Hmin_in Hmin].
  destruct (max_date_spec d0 rest) as [Hmax_in Hmax].
  rewrite Forall_forall in Hv.
  destruct (date_add_day_next _ _ (Hv _ Hmax_in) Hend) as (Hve & Hlt & _).
  repeat (split; [reflexivity|]).
  split; [destruct (entry_link e); split; congruence|].
  split; [intros l Hl; destruct (entry_link e); congruence|].
  split; [now apply Hv|]. split; [exact Hve|].
  split; [eapply date_le_lt_trans; [apply Hmin, Hmax_in | exact Hlt]|].
  exists (d0 :: rest). split; [exact Hc|]. split; [exact Hmin_in|].
  intros d Hd. split; [now apply Hmin|].
  eapply date_le_lt_trans; [now apply Hmax | exact Hlt].
Qed.

Lemma event_invariants_witness :
  date_lt
    (ev_dtstart
       (mkevent (make_uid [] (lit "Sciopero treni Milano 05/03/2024"))
          d_2024_03_05 (mkdate 2024 3 6) Rail Unspecified None))
    (ev_dtend
       (mkevent (make_uid [] (lit "Sciopero treni Milano 05/03/2024"))
          d_2024_03_05 (mkdate 2024 3 6) Rail Unspecified None)).
Proof.
  apply (event_invariants default_config
           (dated_entry "Sciopero treni Milano 05/03/2024")).
  vm_compute. reflexivity.
Defined.

Lemma sorted_head_least (d : date) (ds : list date) :
  StronglySorted date_lt (d :: ds) ->
  forall x, In x (d :: ds) -> date_le d x.
Proof.
  intros H x [<- | Hx]; [apply date_le_refl|].
  apply StronglySorted_inv in H. destruct H as [_ H].
  rewrite Forall_forall in H. now apply date_lt_le, H.
Qed.

Lemma last_cons_default {A : Type} (y d : A) (l : list A) :
  last (y :: l) d = last l y.
Proof.
  revert y d. induction l as [|z l IH]; intros y d; [reflexivity|].
  change (last (y :: z :: l) d) with (last (z :: l) d).
  now rewrite (IH z d), (IH z y).
Qed.

Lemma sorted_last_greatest (d : date) (ds : list date) :
  StronglySorted date_lt (d :: ds) ->
  forall x, In x (d :: ds) -> date_le x (last ds d).
Proof.
  revert d. induction ds as [|y ds IH]; intros d H x Hx.
  - destruct Hx as [<- | []]. apply date_le_refl.
  - apply StronglySorted_inv in H. destruct H as [Hs Hd].
    rewrite last_cons_default.
    destruct Hx as [<- | Hx]; [|now apply IH].
    apply date_le_trans with (b := y).
    + apply date_lt_le. rewrite Forall_forall in Hd. apply Hd. now left.
    + apply IH; [exact Hs | now left].
Qed.

Lemma last_in_cons {A : Type} (d : A) (l : list A) : In (last l d) (d :: l).
Proof.
  revert d. induction l as [|y l IH]; intros d; [now left|].
  rewrite last_cons_default. right. apply IH.
Qed.

(** X13.  When the blob of an entry holds a date, the timestamps of the
    entry play no part: the entry gives the same result with any other
    timestamps, and its event starts on the first date that
    [extract_dates] returns and ends on the day after the last one. *)
Theorem blob_dates_decide_span (cfg : config) (e : entry) (d : date)
    (ds : list date) :
  extract_dates (entry_blob e) = Ok (d :: ds) ->
  (forall published updated,
      process_entry cfg (with_timestamps e published updated)
      = process_entry cfg e) /\
  (forall ev,
      process_entry cfg e = Ok (Some ev) ->
      ev_dtstart ev = d /\ date_add_day (last ds d) = Ok (ev_dtend ev)).
Proof.
  intros Hd.
  destruct (extract_dates_ok (entry_blob e)) as (dates & Hd' & Hv & Hs).
  rewrite Hd in Hd'. injection Hd' as <-.
  assert (Hmin : min_date d ds = d).
  { destruct (min_date_spec d ds) as [Hin Hle].
    apply date_le_antisym; [apply Hle; now left|].
    exact (sorted_head_least d ds Hs _ Hin). }
  assert (Hmax : max_date d ds = last ds d).
  { destruct (max_date_spec d ds) as [Hin Hle].
    apply date_le_antisym; [exact (sorted_last_greatest d ds Hs _ Hin)|].
    apply Hle. apply last_in_cons. }
  split.
  - intros published updated. unfold process_entry.
    change (entry_blob (with_timestamps e published updated))
      with (entry_blob e).
    rewrite Hd. reflexivity.
  - intros ev H. destruct (included cfg e) eqn:Hi.
    2:{ rewrite (process_entry_excluded _ _ Hi) in H. discriminate. }
    rewrite (process_entry_included cfg e (d :: ds) Hi Hd) in H.
    cbn [bind] in H. unfold choose_event_span in H. rewrite Hmin, Hmax in H.
    destruct (date_add_day (last ds d)) as [end_|err]; [|discriminate].
    cbn [bind] in H. injection H as <-. split; reflexivity.
Qed.

Lemma blob_dates_decide_span_witness :
  process_entry default_config
    (with_timestamps (dated_entry "Sciopero treni Milano 05/03/2024")
       (Some (mktime 9999 12 31)) None)
  = process_entry default_config
      (dated_entry "Sciopero treni Milano 05/03/2024").
Proof.
  apply (proj1 (blob_dates_decide_span default_config
                  (dated_entry "Sciopero treni Milano 05/03/2024")
                  d_2024_03_05 [] eq_refl)).
Defined.

(** ** Dates in the two notations *)

Lemma is_sep_not_digit (c : ascii) : is_sep c = true -> is_digit c = false.
Proof.
  pose proof (forall_chars
    (fun c => negb (is_sep c) || negb (is_digit c)) eq_refl c) as E.
  cbv beta in E. intros H. rewrite H in E. simpl in E.
  now apply negb_true_iff in E.
Qed.

(** A count beyond the digits at hand fails. *)
Lemma take_digits_beyond (n : nat) (ds rest : str) :
  (List.length ds < n)%nat -> no_digit_ahead rest ->
  take_digits n (ds ++ rest) = None.
Proof.
  intros Hn Hr. destruct (take_digits n (ds ++ rest)) as [[x y]|] eqn:E;
    [|reflexivity].
  exfalso. apply take_digits_some in E. destruct E as (E & Hl & Hd).
  apply app_eq_app in E. destruct E as [l [[-> _] | [-> E]]].
  - rewrite length_app in Hn. lia.
  - destruct l as [|c l]; [rewrite app_nil_r in Hl; lia|].
    subst rest. simpl in Hr. rewrite forallb_app in Hd. simpl in Hd.
    rewrite Hr, andb_false_r in Hd. discriminate.
Qed.

Lemma first_some_skip {A B : Type} (f : A -> option B) (l1 l2 : list A)
    (x : A) :
  (forall y, In y l1 -> f y = None) ->
  first_some f (l1 ++ x :: l2)
  = match f x with Some b => Some b | None => first_some f l2 end.
Proof.
  intros H. induction l1 as [|y l1 IH]; [reflexivity|].
  cbn [app first_some]. rewrite (H y) by (now left).
  apply IH. intros z Hz. apply H. now right.
Qed.

Lemma counts_split (lo hi n : nat) :
  (lo <= n <= hi)%nat ->
  counts lo hi = rev (seq (S n) (hi - n)) ++ n :: rev (seq lo (n - lo)).
Proof.
  intros H. unfold counts.
  replace (S hi - lo)%nat with ((n - lo) + S (hi - n))%nat by lia.
  rewrite seq_app, rev_app_distr. cbn [seq rev].
  replace (lo + (n - lo))%nat with n by lia.
  rewrite <- app_assoc. reflexivity.
Qed.

(** A digit group takes the whole run of digits before it goes on, when
    the run has the greatest length allowed or no digit follows it. *)
Lemma match_here_digits (g : group) (lo hi : nat) (p : pattern)
    (ds rest : str) (gs : list (group * str)) (k : nat) :
  field lo hi ds ->
  List.length ds = hi \/ no_digit_ahead rest ->
  match_here p rest = Some (gs, k) ->
  match_here (Digits g lo hi :: p) (ds ++ rest)
  = Some ((g, ds) :: gs, (List.length ds + k)%nat).
Proof.
  intros [Hd Hl] Hstop Hm. cbn [match_here].
  rewrite (counts_split lo hi (List.length ds) Hl), first_some_skip.
  - now rewrite (take_digits_app _ _ Hd), Hm.
  - intros y Hy. apply in_rev, in_seq in Hy.
    destruct Hstop as [Hs | Hs]; [lia|].
    rewrite take_digits_beyond; [reflexivity | lia | exact Hs].
Qed.

Lemma match_here_sep (p : pattern) (c : ascii) (rest : str)
    (gs : list (group * str)) (k : nat) :
  is_sep c = true -> match_here p rest = Some (gs, k) ->
  match_here (Sep :: p) (c :: rest) = Some (gs, S k).
Proof. intros Hc Hm. cbn [match_here]. now rewrite Hc, Hm. Qed.

Lemma forms_date_groups (gs : list (group * str)) (n : nat)
    (ys ms ds : str) (dt : date) :
  group_of gs G_y = Ok ys -> group_of gs G_m = Ok ms ->
  group_of gs G_d = Ok ds ->
  date_new (digits_value ys) (digits_value ms) (digits_value ds) = Ok dt ->
  forms_date (gs, n) dt.
Proof.
  intros Hy Hm Hd Hn. apply date_new_ok in Hn. destruct Hn as [-> Hv].
  exists ys, ms, ds. unfold m_group. cbn [fst]. auto.
Qed.

(** X14.  Every date in the day-month-year notation is found, day first:
    where a run of 1-2 digits, a separator, 1-2 digits, a separator and 4
    digits stands at the start of the text or after a character that is
    neither a digit nor a separator, and day, month and year form a date
    of the calendar, that date is returned, whatever follows. *)
Theorem dmy_dates_found (pre post ds ms ys : str) (s1 s2 : ascii)
    (dt : date) :
  boundary pre ->
  field 1 2 ds -> field 1 2 ms -> field 4 4 ys ->
  is_sep s1 = true -> is_sep s2 = true ->
  date_new (digits_value ys) (digits_value ms) (digits_value ds) = Ok dt ->
  exists l,
    extract_dates (pre ++ (ds ++ s1 :: ms ++ s2 :: ys) ++ post) = Ok l /\
    In dt l.
Proof.
  intros Hb Hd Hm Hy H1 H2 Hn.
  assert (Hmatch : match_here dmy_pattern
                     ((ds ++ s1 :: ms ++ s2 :: ys) ++ post)
                   = Some ([(G_d, ds); (G_m, ms); (G_y, ys)],
                           (List.length ds
                            + S (List.length ms
                                 + S (List.length ys + 0)))%nat)).
  { rewrite <- app_assoc. cbn [app]. rewrite <- app_assoc. cbn [app].
    apply match_here_digits;
      [exact Hd | right; simpl; now apply is_sep_not_digit|].
    apply match_here_sep; [exact H1|].
    apply match_here_digits;
      [exact Hm | right; simpl; now apply is_sep_not_digit|].
    apply match_here_sep; [exact H2|].
    apply match_here_digits; [exact Hy | left; destruct Hy; lia|].
    reflexivity. }
  eapply extract_dates_member with (pat := dmy_pattern).
  - now left.
  - apply finditer_at_boundary; [exact Hb | | exact Hmatch].
    destruct Hd as [_ Hl]. destruct ds; [simpl in Hl; lia | discriminate].
  - eapply forms_date_groups; [reflexivity | reflexivity | reflexivity |].
    exact Hn.
Qed.

Lemma dmy_dates_found_witness :
  exists l,
    extract_dates (lit "dal " ++ (lit "3" ++ "-"%char :: lit "11"
                                    ++ "/"%char :: lit "2025") ++ lit "12")
    = Ok l /\ In (mkdate 2025 11 3) l.
Proof.
  apply dmy_dates_found.
  - right. exists (lit "dal"), " "%char. split; reflexivity.
  - split; [reflexivity | simpl; lia].
  - split; [reflexivity | simpl; lia].
  - split; [reflexivity | simpl; lia].
  - reflexivity.
  - reflexivity.
  - reflexivity.
Defined.

(** X15.  Every date in the year-month-day notation is found: where a run
    of 4 digits, a separator, 1-2 digits, a separator and 1-2 digits
    stands at the start of the text or after a character that is neither
    a digit nor a separator, the day has two digits or no digit follows
    it, and year, month and day form a date of the calendar, that date is
    returned. *)
Theorem ymd_dates_found (pre post ys ms ds : str) (s1 s2 : ascii)
    (dt : date) :
  boundary pre ->
  field 4 4 ys -> field 1 2 ms -> field 1 2 ds ->
  is_sep s1 = true -> is_sep s2 = true ->
  List.length ds = 2%nat \/ no_digit_ahead post ->
  date_new (digits_value ys) (digits_value ms) (digits_value ds) = Ok dt ->
  exists l,
    extract_dates (pre ++ (ys ++ s1 :: ms ++ s2 :: ds) ++ post) = Ok l /\
    In dt l.
Proof.
  intros Hb Hy Hm Hd H1 H2 Hstop Hn.
  assert (Hmatch : match_here ymd_pattern
                     ((ys ++ s1 :: ms ++ s2 :: ds) ++ post)
                   = Some ([(G_y, ys); (G_m, ms); (G_d, ds)],
                           (List.length ys
                            + S (List.length ms
                                 + S (List.length ds + 0)))%nat)).
  { rewrite <- app_assoc. cbn [app]. rewrite <- app_assoc. cbn [app].
    apply match_here_digits; [exact Hy | left; destruct Hy; lia|].
    apply match_here_sep; [exact H1|].
    apply match_here_digits;
      [exact Hm | right; simpl; now apply is_sep_not_digit|].
    apply match_here_sep; [exact H2|].
    apply match_here_digits; [exact Hd | exact Hstop|].
    reflexivity. }
  eapply extract_dates_member with (pat := ymd_pattern).
  - right. now left.
  - apply finditer_at_boundary; [exact Hb | | exact Hmatch].
    destruct Hy as [_ Hl]. destruct ys; [simpl in Hl; lia | discriminate].
  - eapply forms_date_groups; [reflexivity | reflexivity | reflexivity |].
    exact Hn.
Qed.

Lemma ymd_dates_found_witness :
  exists l,
    extract_dates ([] ++ (lit "2025" ++ "/"%char :: lit "2"
                            ++ "/"%char :: lit "7") ++ lit " ore 9")
    = Ok l /\ In (mkdate 2025 2 7) l.
Proof.
  apply ymd_dates_found.
  - now left.
  - split; [reflexivity | simpl; lia].
  - split; [reflexivity | simpl; lia].
  - split; [reflexivity | simpl; lia].
  - reflexivity.
  - reflexivity.
  - right. reflexivity.
  - reflexivity.
Defined.



Lemma take_digits_within (n : nat) (s r : str) :
  (n <= List.length s)%nat ->
  take_digits n (s ++ r)
  = match take_digits n s with
    | Some (x, y) => Some (x, y ++ r)
    | None => None
    end.
Proof.
  intros Hn. unfold take_digits.
  rewrite firstn_app, skipn_app.
  replace (n - List.length s)%nat with 0%nat by lia.
  cbn [firstn skipn]. rewrite app_nil_r.
  now destruct ((List.length (firstn n s) =? n)%nat
                && forallb is_digit (firstn n s)).
Qed.

Lemma take_digits_short (n : nat) (s : str) :
  (List.length s < n)%nat -> take_digits n s = None.
Proof.
  intros Hn. unfold take_digits. rewrite firstn_all2 by lia.
  replace (List.length s =? n)%nat with false; [reflexivity|].
  symmetry. apply Nat.eqb_neq. lia.
Qed.

Lemma first_some_ext {A B : Type} (f g : A -> option B) (xs : list A) :
  (forall x, f x = g x) -> first_some f xs = first_some g xs.
Proof.
  intros H. induction xs as [|x xs IH]; simpl; [reflexivity|].
  now rewrite H, IH.
Qed.

Lemma date_char_false (c : ascii) :
  date_char c = false -> is_digit c = false /\ is_sep c = false.
Proof. unfold date_char. now apply orb_false_iff. Qed.

(** What a pattern matches at the start of a text does not depend on what
    follows a character that is neither a digit nor a separator. *)
Lemma match_here_cut (p : pattern) (s rest : str) (c : ascii) :
  date_char c = false ->
  match_here p (s ++ c :: rest) = match_here p s.
Proof.
  intros Hc. destruct (date_char_false _ Hc) as [Hd Hs].
  revert s. induction p as [|a p IH]; intros s; [reflexivity|].
  destruct a as [g lo hi|].
  - cbn [match_here]. apply first_some_ext. intros n.
    destruct (Nat.le_gt_cases n (List.length s)) as [Hn | Hn].
    + rewrite (take_digits_within n s (c :: rest) Hn).
      destruct (take_digits n s) as [[x y]|]; [|reflexivity].
      now rewrite IH.
    + rewrite (take_digits_short n s Hn).
      now rewrite (take_digits_beyond n s (c :: rest) Hn Hd).
  - destruct s as [|x s]; cbn [match_here app].
    + now rewrite Hs.
    + now rewrite IH.
Qed.

(** The scan of a date pattern over two texts joined by such a character
    is the scan of the first followed by the scan of the second. *)
Lemma finditer_cut (p : pattern) (a b : str) (c : ascii) :
  match_here p [] = None -> date_char c = false ->
  finditer p (a ++ c :: b) = finditer p a ++ finditer p b.
Proof.
  intros Hnil Hc. unfold finditer.
  assert (H : forall k, (k <= List.length a)%nat ->
                        finditer_from p k (a ++ c :: b)
                        = finditer_from p k a ++ finditer_from p 0 b);
    [|apply H; lia].
  induction a as [|x a IH]; intros k Hk.
  - simpl in Hk. assert (k = 0)%nat as -> by lia.
    cbn [app finditer_from].
    pose proof (match_here_cut p [] b c Hc) as E. cbn [app] in E.
    now rewrite E, Hnil.
  - cbn [app finditer_from]. destruct k as [|k].
    + change (x :: a ++ c :: b) with ((x :: a) ++ c :: b).
      rewrite (match_here_cut p (x :: a) b c Hc).
      destruct (match_here p (x :: a)) as [[gs n]|] eqn:E.
      * cbn [app]. f_equal. apply IH.
        destruct (match_here_sound _ _ _ _ E) as (m & r & Hm & Hl & _).
        apply (f_equal (@List.length ascii)) in Hm.
        rewrite length_app in Hm. simpl in Hm. lia.
      * apply IH. lia.
    + apply IH. simpl in Hk. lia.
Qed.

Lemma sorted_unique (l l' : list date) :
  StronglySorted date_lt l -> StronglySorted date_lt l' ->
  (forall x, In x l <-> In x l') -> l = l'.
Proof.
  intros Hl. revert l'. induction Hl as [|x r Hr IH Hx]; intros l' Hl' H.
  - destruct l' as [|y r']; [reflexivity|].
    destruct (proj2 (H y) (or_introl eq_refl)).
  - destruct Hl' as [|y r' Hr' Hy].
    { destruct (proj1 (H x) (or_introl eq_refl)). }
    rewrite Forall_forall in Hx, Hy.
    assert (Exy : x = y).
    { destruct (proj1 (H x) (or_introl eq_refl)) as [E | Hin]; [now symmetry|].
      destruct (proj2 (H y) (or_introl eq_refl)) as [E | Hin']; [exact E|].
      exfalso. apply (date_lt_irrefl x).
      eapply date_lt_trans; [apply Hx, Hin' | apply Hy, Hin]. }
    subst y. f_equal. apply IH; [exact Hr'|].
    intros z. split; intros Hz.
    + destruct (proj1 (H z) (or_intror Hz)) as [E | Hin]; [|exact Hin].
      subst z. destruct (date_lt_irrefl x (Hx x Hz)).
    + destruct (proj2 (H z) (or_intror Hz)) as [E | Hin]; [|exact Hin].
      subst z. destruct (date_lt_irrefl x (Hy x Hz)).
Qed.

Lemma extract_dates_cut (a b : str) (c : ascii) :
  date_char c = false ->
  extract_dates (a ++ c :: b)
  = (la <- extract_dates a ;; lb <- extract_dates b ;;
     Ok (sorted_set (la ++ lb))).
Proof.
  intros Hc.
  destruct (extract_dates_found (a ++ c :: b)) as (f & -> & Hf).
  destruct (extract_dates_found a) as (fa & -> & Hfa).
  destruct (extract_dates_found b) as (fb & -> & Hfb).
  cbn [bind]. f_equal.
  apply sorted_unique; try apply sorted_set_sorted.
  intros x. rewrite !sorted_set_in, in_app_iff, !sorted_set_in, Hf, Hfa, Hfb.
  split.
  - intros (pat & m & Hp & Hm & Hd).
    rewrite finditer_cut in Hm;
      [|destruct Hp as [<- | [<- | []]]; reflexivity | exact Hc].
    apply in_app_or in Hm.
    destruct Hm as [Hm | Hm]; [left | right]; now exists pat, m.
  - intros [(pat & m & Hp & Hm & Hd) | (pat & m & Hp & Hm & Hd)];
      exists pat, m; (split; [exact Hp|]); (split; [|exact Hd]);
      (rewrite finditer_cut;
       [|destruct Hp as [<- | [<- | []]]; reflexivity | exact Hc]);
      apply in_or_app; [now left | now right].
Qed.

(** X17.  The dates of two texts joined by a character that is neither a
    digit nor a separator are the dates of the first and those of the
    second, sorted together without repetition; so the dates of the blob
    of an entry are exactly the dates of its title, of its summary and of
    its link, which the blob joins by newlines. *)
Theorem extract_dates_joined (a b : str) (c : ascii) :
  date_char c = false ->
  extract_dates (a ++ c :: b)
  = (la <- extract_dates a ;; lb <- extract_dates b ;;
     Ok (sorted_set (la ++ lb))) /\
  forall e : entry,
    extract_dates (entry_blob e)
    = (lt <- extract_dates (entry_title e) ;;
       ls <- extract_dates (entry_summary e) ;;
       ll <- extract_dates (entry_link e) ;;
       Ok (sorted_set (lt ++ ls ++ ll))).
Proof.
  intros Hc. split; [now apply extract_dates_cut|].
  intros e. unfold entry_blob. cbn [app].
  rewrite (extract_dates_cut (entry_title e) _ newline eq_refl).
  rewrite (extract_dates_cut (entry_summary e) _ newline eq_refl).
  destruct (extract_dates_ok (entry_title e)) as (lt & -> & _ & _).
  destruct (extract_dates_ok (entry_summary e)) as (ls & -> & _ & _).
  destruct (extract_dates_ok (entry_link e)) as (ll & -> & _ & _).
  cbn [bind]. f_equal.
  apply sorted_unique; try apply sorted_set_sorted.
  intros x. rewrite !sorted_set_in, !in_app_iff, sorted_set_in, in_app_iff.
  tauto.
Qed.

Lemma extract_dates_joined_witness :
  extract_dates (lit "dal 05/03/2024" ++ " "%char :: lit "al 2024-03-07")
  = (la <- extract_dates (lit "dal 05/03/2024") ;;
     lb <- extract_dates (lit "al 2024-03-07") ;;
     Ok (sorted_set (la ++ lb))).
Proof.
  apply (extract_dates_joined (lit "dal 05/03/2024") (lit "al 2024-03-07")
           " "%char).
  reflexivity.
Defined.

(** ** The span and the identifier *)

(** X18.  The span depends on the set of dates only: two lists with the
    same dates, in any order and with any repetitions, give the same
    result, an error included; so sorting and deduplicating the dates
    first changes nothing. *)
Theorem choose_event_span_set (dates dates' : list date) :
  (forall d, In d dates <-> In d dates') ->
  choose_event_span dates = choose_event_span dates' /\
  choose_event_span (sorted_set dates) = choose_event_span dates.
Proof.
  assert (H : forall l l', (forall d, In d l <-> In d l') ->
                           choose_event_span l = choose_event_span l').
  { intros l l' Hs. destruct l as [|d0 rest], l' as [|d0' rest'].
    - reflexivity.
    - destruct (proj2 (Hs d0') (or_introl eq_refl)).
    - destruct (proj1 (Hs d0) (or_introl eq_refl)).
    - unfold choose_event_span.
      destruct (min_date_spec d0 rest) as [Hi Hl].
      destruct (min_date_spec d0' rest') as [Hi' Hl'].
      destruct (max_date_spec d0 rest) as [Ha Hg].
      destruct (max_date_spec d0' rest') as [Ha' Hg'].
      assert (Emin : min_date d0 rest = min_date d0' rest').
      { apply date_le_antisym; [apply Hl, Hs, Hi' | apply Hl', Hs, Hi]. }
      assert (Emax : max_date d0 rest = max_date d0' rest').
      { apply date_le_antisym; [apply Hg', Hs, Ha | apply Hg, Hs, Ha']. }
      now rewrite Emin, Emax. }
  intros Hs. split; [now apply H|].
  apply H. intros d. apply sorted_set_in.
Qed.

Lemma choose_event_span_set_witness :
  choose_event_span [mkdate 2024 3 7; mkdate 2024 3 5; mkdate 2024 3 7]
  = choose_event_span [mkdate 2024 3 5; mkdate 2024 3 7].
Proof.
  apply (choose_event_span_set
           [mkdate 2024 3 7; mkdate 2024 3 5; mkdate 2024 3 7]
           [mkdate 2024 3 5; mkdate 2024 3 7]).
  intros d. simpl. tauto.
Defined.

Lemma encode_utf8_char_shape (c : ascii) :
  (exists b, encode_utf8_char c = [b] /\ b < 128 /\
             c = ascii_of_N (Z.to_N b)) \/
  (exists b1 b2, encode_utf8_char c = [b1; b2] /\ 128 <= b1 /\
                 c = ascii_of_N
                       (Z.to_N (Z.lor (Z.shiftl (Z.land b1 3) 6)
                                  (Z.land b2 63)))).
Proof.
  pose proof (forall_chars
    (fun c =>
       match encode_utf8_char c with
       | [b] => (b <? 128) && ascii_eqb c (ascii_of_N (Z.to_N b))
       | [b1; b2] =>
           (128 <=? b1)
           && ascii_eqb c
                (ascii_of_N (Z.to_N (Z.lor (Z.shiftl (Z.land b1 3) 6)
                                       (Z.land b2 63))))
       | _ => false
       end) eq_refl c) as E.
  cbv beta in E.
  destruct (encode_utf8_char c) as [|b1 [|b2 [|b3 r]]]; try discriminate.
  - left. exists b1. apply andb_true_iff in E. destruct E as [E1 E2].
    apply Z.ltb_lt in E1. apply Ascii.eqb_eq in E2. auto.
  - right. exists b1, b2. apply andb_true_iff in E. destruct E as [E1 E2].
    apply Z.leb_le in E1. apply Ascii.eqb_eq in E2. auto.
Qed.

Lemma encode_utf8_char_prefix (c c' : ascii) (r r' : list Z) :
  encode_utf8_char c ++ r = encode_utf8_char c' ++ r' -> c = c' /\ r = r'.
Proof.
  intros H.
  destruct (encode_utf8_char_shape c)
    as [(b & E & Hb & Hc) | (b1 & b2 & E & Hb & Hc)];
    destruct (encode_utf8_char_shape c')
      as [(b' & E' & Hb' & Hc') | (b1' & b2' & E' & Hb' & Hc')];
    rewrite E, E' in H; cbn [app] in H.
  - injection H as -> ->. split; [congruence | reflexivity].
  - injection H as -> _. lia.
  - injection H as -> _. lia.
  - injection H as -> -> ->. split; [congruence | reflexivity].
Qed.

Lemma encode_utf8_inj (s s' : str) :
  encode_utf8 s = encode_utf8 s' -> s = s'.
Proof.
  revert s'. induction s as [|c s IH]; intros [|c' s'] H.
  - reflexivity.
  - exfalso. cbn [encode_utf8 flat_map] in H.
    destruct (encode_utf8_char_shape c') as [(b & E & _) | (b1 & b2 & E & _)];
      rewrite E in H; discriminate.
  - exfalso. cbn [encode_utf8 flat_map] in H.
    destruct (encode_utf8_char_shape c) as [(b & E & _) | (b1 & b2 & E & _)];
      rewrite E in H; discriminate.
  - cbn [encode_utf8 flat_map] in H.
    apply encode_utf8_char_prefix in H. destruct H as [-> H].
    f_equal. now apply IH.
Qed.

Lemma app_separator_inj {A : Type} (x : A) (a a' b b' : list A) :
  ~ In x a -> ~ In x a' -> a ++ x :: b = a' ++ x :: b' -> a = a' /\ b = b'.
Proof.
  revert a'. induction a as [|y a IH]; intros [|y' a'] Ha Ha' H.
  - injection H as ->. auto.
  - injection H as -> _. exfalso. apply Ha'. now left.
  - injection H as -> _. exfalso. apply Ha. now left.
  - injection H as -> H.
    destruct (IH a') as [-> ->]; auto;
      intros Hin; [apply Ha | apply Ha']; now right.
Qed.

(** X19.  The identifier is derived from the UTF-8 bytes of
    [link + "|" + title], and these bytes determine the pair whenever the
    links hold no "|": two entries whose links are free of "|" get the
    same bytes to hash only if they have the same link and the same
    title. *)
Theorem uid_message_injective (link title link' title' : str) :
  ~ In "|"%char link -> ~ In "|"%char link' ->
  uid_message link title = uid_message link' title' ->
  (link = link' /\ title = title') /\
  make_uid link title
  = lit "mit-strike-" ++ SHA1.hexdigest (uid_message link title)
      ++ lit "@milan".
Proof.
  intros Hl Hl' H. split; [|reflexivity].
  unfold uid_message in H. apply encode_utf8_inj in H.
  now apply (app_separator_inj "|"%char).
Qed.

Lemma uid_message_injective_witness :
  (lit "https://x/1" = lit "https://x/1" /\ lit "a|b" = lit "a|b") /\
  make_uid (lit "https://x/1") (lit "a|b")
  = lit "mit-strike-"
      ++ SHA1.hexdigest (uid_message (lit "https://x/1") (lit "a|b"))
      ++ lit "@milan".
Proof.
  apply (uid_message_injective (lit "https://x/1") (lit "a|b")
           (lit "https://x/1") (lit "a|b")).
  - simpl. intuition discriminate.
  - simpl. intuition discriminate.
  - reflexivity.
Defined.

(** ** The scope lines of the description *)

Lemma usplit_pieces (sep : N) (s : ustr) :
  Forall (fun x => ~ In sep x) (usplit sep s) /\
  usplit sep s <> [] /\
  (In sep s -> (2 <= List.length (usplit sep s))%nat).
Proof.
  induction s as [|c s (IH1 & IH2 & IH3)]; cbn [usplit].
  - repeat split; [repeat constructor; auto | discriminate | intros []].
  - destruct (N.eqb_spec c sep) as [-> | Hc].
    + repeat split.
      * constructor; [intros [] | exact IH1].
      * discriminate.
      * intros _. cbn [List.length].
        destruct (usplit sep s); [now destruct IH2 | cbn; lia].
    + destruct (usplit sep s) as [|x xs]; [now destruct IH2|].
      repeat split.
      * inversion IH1; subst. constructor; [|assumption].
        intros [E | Hin]; [congruence | contradiction].
      * discriminate.
      * intros [E | Hin]; [congruence|]. apply (IH3 Hin).
Qed.

Lemma ulstrip_in (c : N) (s : ustr) : In c (ulstrip s) -> In c s.
Proof.
  induction s as [|a s IH]; cbn [ulstrip]; [auto|].
  destruct (u_is_space a); [right; auto | auto].
Qed.

Lemma ustrip_in (c : N) (s : ustr) : In c (ustrip s) -> In c s.
Proof.
  unfold ustrip. intros H. apply in_rev, ulstrip_in, in_rev in H.
  now apply ulstrip_in.
Qed.

Lemma existsb_slash (s : ustr) :
  existsb (N.eqb slash) s = true <-> In slash s.
Proof.
  rewrite existsb_exists. split.
  - intros (x & Hx & E). apply N.eqb_eq in E. now subst.
  - intros H. exists slash. split; [exact H | apply N.eqb_refl].
Qed.

(** X20.  The two scope lines of the description never fail: for every
    string, the part before the first "/" and, when the string holds a
    "/", the part after it exist, so no [IndexError] is raised, and
    neither part holds a "/".  For the string of every scope that
    [detect_scope] returns, the English line shows the name before " / "
    and the Chinese line the name after it; each of these strings holds a
    "/", so the literal for a missing Chinese part is never used, and the
    same characters are shown exactly when the scope is Unspecified. *)
Theorem description_scope_lines :
  (forall scope : ustr,
      (exists en, scope_en_part scope = Ok en /\ ~ In slash en) /\
      (exists zh, scope_zh_part scope = Ok zh /\
                  (In slash scope -> ~ In slash zh))) /\
  (forall text : str,
      exists en zh,
        scope_text (detect_scope text) = en ++ ulit " / " ++ zh /\
        existsb (N.eqb slash) (scope_text (detect_scope text)) = true /\
        scope_en_part (scope_text (detect_scope text)) = Ok en /\
        scope_zh_part (scope_text (detect_scope text)) = Ok zh /\
        (zh = zh_unspecified <-> detect_scope text = Unspecified)).
Proof.
  split.
  - intros scope.
    destruct (usplit_pieces slash scope) as (Hall & Hne & Hlen).
    unfold scope_en_part, scope_zh_part, index.
    destruct (usplit slash scope) as [|x xs] eqn:E; [now destruct Hne|].
    inversion Hall as [|? ? Hx Hxs]; subst. split.
    + exists (ustrip x). split; [reflexivity|].
      intros H. apply ustrip_in in H. contradiction.
    + destruct (existsb (N.eqb slash) scope) eqn:Ex.
      * apply existsb_slash in Ex. specialize (Hlen Ex).
        destruct xs as [|y ys]; [cbn in Hlen; lia|].
        inversion Hxs; subst.
        exists (ustrip y). split; [reflexivity|].
        intros _ H. apply ustrip_in in H. contradiction.
      * exists zh_unspecified. split; [reflexivity|].
        intros H. apply existsb_slash in H. congruence.
  - intros text. destruct (detect_scope text).
    + exists (ulit "National"), [0x5168; 0x56FD]%N.
      repeat split; try reflexivity; discriminate.
    + exists (ulit "Regional"), [0x533A; 0x57DF]%N.
      repeat split; try reflexivity; discriminate.
    + exists (ulit "Province"), [0x7701; 0x7EA7]%N.
      repeat split; try reflexivity; discriminate.
    + exists (ulit "Local"), [0x672C; 0x5730]%N.
      repeat split; try reflexivity; discriminate.
    + exists (ulit "Unspecified"), zh_unspecified.
      repeat split; reflexivity.
Qed.
